(** * pipe_supertask: GraphBuilder and pipeline ordering

    A shallow embedding of [python/lsst/pipe/supertask/graphBuilder.py]
    and of the ordering tools exercised by [tests/test_pipeTools.py].

    - [GraphBuilder] follows [graphBuilder.py] statement by statement.
      [TaskDef] instances are Python objects: they live in a store and
      are passed around by reference, so that [copy.copy] and attribute
      assignment can be told apart from in-place mutation.
    - [PipeTools] models [pipeTools.isPipelineOrdered] and
      [pipeTools.orderPipeline].
    - [Tests] holds the mock dataset type, config and task class of
      [test_pipeTools.py]. *)

From stdpp Require Import base option list gmap sets strings.

Open Scope string_scope.
Open Scope list_scope.

(** ** Data model *)

Section DataModel.
Context {DatasetType Config : Type}.

(** The capability every task class exposes: two class methods that
    map a config to a dict of dataset types.  A dict is kept as the
    list of its items in iteration order. *)
Record TaskClass := mkTaskClass {
  getInputDatasetTypes : Config → list (string * DatasetType);
  getOutputDatasetTypes : Config → list (string * DatasetType)
}.

(** Modelled from the spec: the [TaskDef] class of [pipeline.py] is not
    part of the sources; its four attributes are those of spec section 3
    and of the constructor call in [_makePipeline]. *)
Record TaskDef := mkTaskDef {
  taskName : string;
  config : Config;
  taskClass : option TaskClass;
  label : string
}.

(** [dict.values()] *)
Definition values {V : Type} (d : list (string * V)) : list V := d.*2.

(** Python truth value of a container: [if taskInputs:] *)
Definition truthy {V : Type} (d : list V) : bool :=
  match d with [] => false | _ :: _ => true end.
End DataModel.

Arguments TaskClass : clear implicits.
Arguments TaskDef : clear implicits.

(** ** graphBuilder.py *)

Module GraphBuilder.

(** Exceptions that the methods of [GraphBuilder] can let escape. *)
Inductive PyError :=
| AttributeError (obj attr : string)
| KeyError (key : string)
| FactoryError (msg : string)
| InvalidReference.

(** Object references. *)
Abbreviation loc := nat (only parsing).

Section Methods.
Context {DatasetType Config Registry QuantumGraph : Type}.
Context `{Countable DatasetType}.
Context (name : DatasetType → string).

Abbreviation TaskClass' := (TaskClass DatasetType Config).
Abbreviation TaskDef' := (TaskDef DatasetType Config).
Abbreviation Heap := (gmap nat TaskDef').

(** [taskFactory.loadTaskClass(taskName)] returns [(class, name)] or
    raises. *)
Record TaskFactory := mkTaskFactory {
  loadTaskClass : string → PyError + TaskClass' * string
}.

Record GraphBuilder := mkGraphBuilder {
  taskFactory : TaskFactory;
  registry : Registry;
  userQuery : option string
}.

(** Computations read and write the store of [TaskDef] objects and
    either return or raise; the store survives an exception. *)
Definition M (A : Type) : Type := Heap → (PyError + A) * Heap.

Definition ret {A} (a : A) : M A := λ h, (inr a, h).
Definition raise {A} (e : PyError) : M A := λ h, (inl e, h).
Definition bind {A B} (c : M A) (k : A → M B) : M B :=
  λ h, match c h with
       | (inl e, h') => (inl e, h')
       | (inr a, h') => k a h'
       end.
Definition lift {A} (r : PyError + A) : M A := λ h, (r, h).

#[global] Instance M_bind : MBind M := λ A B k c, bind c k.

(** Attribute reads go through the reference. *)
Definition getattr {A} (l : loc) (field : TaskDef' → A) : M A :=
  λ h, match h !! l with
       | Some td => (inr (field td), h)
       | None => (inl InvalidReference, h)
       end.

(** [copy.copy(obj)]: a new object with the same attribute values. *)
Definition copy (l : loc) : M loc :=
  λ h, match h !! l with
       | Some td => let l' := fresh (dom h) in (inr l', <[l' := td]> h)
       | None => (inl InvalidReference, h)
       end.

(** Attribute assignment [obj.attr = v]. *)
Definition setattr (l : loc) (upd : TaskDef' → TaskDef') : M unit :=
  λ h, match h !! l with
       | Some td => (inr (), <[l := upd td]> h)
       | None => (inl InvalidReference, h)
       end.

Definition with_taskClass (c : option TaskClass') (td : TaskDef') : TaskDef' :=
  mkTaskDef (taskName td) (config td) c (label td).
Definition with_taskName (n : string) (td : TaskDef') : TaskDef' :=
  mkTaskDef n (config td) (taskClass td) (label td).

(** [GraphBuilder._loadTaskClass] *)
Definition _loadTaskClass (self : GraphBuilder) (taskDef : loc) : M loc :=
  cls ← getattr taskDef taskClass;
  match cls with
  | None =>
      nm ← getattr taskDef taskName;
      '(tClass, tName) ← lift (loadTaskClass (taskFactory self) nm);
      taskDef ← copy taskDef;
      _ ← setattr taskDef (with_taskClass (Some tClass));
      _ ← setattr taskDef (with_taskName tName);
      ret taskDef
  | Some _ => ret taskDef
  end.

(** [[f(x) for x in xs]] *)
Fixpoint mapM {A B} (f : A → M B) (xs : list A) : M (list B) :=
  match xs with
  | [] => ret []
  | x :: xs => y ← f x; ys ← mapM f xs; ret (y :: ys)
  end.

(** [for x in xs: acc = body(acc, x)] *)
Fixpoint foldM {A S} (body : S → A → M S) (acc : S) (xs : list A) : M S :=
  match xs with
  | [] => ret acc
  | x :: xs => acc ← body acc x; foldM body acc xs
  end.

(** The inner loops of [buildIODatasets]:
    [for dsType in d.values(): names.add(dsType.name);
                               allDatasetTypes[dsType.name] = dsType] *)
Definition record
    (st : gset string * gmap string DatasetType) (dsType : DatasetType)
    : gset string * gmap string DatasetType :=
  ({[name dsType]} ∪ st.1, <[name dsType := dsType]> st.2).

Definition recordAll (d : list (string * DatasetType))
    (names : gset string) (allDatasetTypes : gmap string DatasetType)
    : gset string * gmap string DatasetType :=
  if truthy d then foldl record (names, allDatasetTypes) (values d)
  else (names, allDatasetTypes).

(** The local variables of [buildIODatasets]. *)
Record Locals := mkLocals {
  allDatasetTypes : gmap string DatasetType;
  inputs : gset string;
  outputs : gset string
}.

(** One pass over the body of [for taskDef in tasks]. *)
Definition visit (vars : Locals) (taskDef : loc) : M Locals :=
  taksClass ← getattr taskDef taskClass;
  match taksClass with
  | None => raise (AttributeError "NoneType" "getInputDatasetTypes")
  | Some taksClass =>
      cfg ← getattr taskDef config;
      let taskInputs := getInputDatasetTypes taksClass cfg in
      cfg ← getattr taskDef config;
      let taskOutputs := getOutputDatasetTypes taksClass cfg in
      let '(ins, tbl) := recordAll taskInputs (inputs vars) (allDatasetTypes vars) in
      let '(outs, tbl) := recordAll taskOutputs (outputs vars) tbl in
      ret (mkLocals tbl ins outs)
  end.

(** [set(allDatasetTypes[name] for name in names)] *)
Fixpoint lookupAll (tbl : gmap string DatasetType) (names : list string)
    : PyError + gset DatasetType :=
  match names with
  | [] => inr ∅
  | n :: names =>
      match tbl !! n with
      | None => inl (KeyError n)
      | Some dsType =>
          match lookupAll tbl names with
          | inl e => inl e
          | inr s => inr ({[dsType]} ∪ s)
          end
      end
  end.

(** [GraphBuilder.buildIODatasets] *)
Definition buildIODatasets (self : GraphBuilder) (tasks : list loc)
    : M (gset DatasetType * gset DatasetType) :=
  vars ← foldM visit (mkLocals ∅ ∅ ∅) tasks;
  let inputs := inputs vars ∖ outputs vars in
  inputs ← lift (lookupAll (allDatasetTypes vars) (elements inputs));
  outputs ← lift (lookupAll (allDatasetTypes vars) (elements (outputs vars)));
  ret (inputs, outputs).

(** [GraphBuilder._makeGraph]: [graph = None; return graph] *)
Definition _makeGraph (self : GraphBuilder) (tasks : list loc)
    (inputs outputs : gset DatasetType) : M (option QuantumGraph) :=
  let graph := None in
  ret graph.

(** [GraphBuilder.makeGraph] *)
Definition makeGraph (self : GraphBuilder) (pipeline : list loc)
    : M (option QuantumGraph) :=
  taskList ← mapM (_loadTaskClass self) pipeline;
  '(inputs, outputs) ← buildIODatasets self taskList;
  _makeGraph self taskList inputs outputs.

(** *** Vocabulary of the statements about [buildIODatasets] *)

(** The dataset types a task declares, in the order in which
    [buildIODatasets] writes them to [allDatasetTypes]: the values of
    [getInputDatasetTypes], then those of [getOutputDatasetTypes]. *)
Definition declaredInputs (td : TaskDef') : list DatasetType :=
  match taskClass td with
  | Some tClass => values (getInputDatasetTypes tClass (config td))
  | None => []
  end.

Definition declaredOutputs (td : TaskDef') : list DatasetType :=
  match taskClass td with
  | Some tClass => values (getOutputDatasetTypes tClass (config td))
  | None => []
  end.

Definition declared (td : TaskDef') : list DatasetType :=
  declaredInputs td ++ declaredOutputs td.

(** Some task of [tds] declares the name [n] as an input (an output). *)
Definition readBy (tds : list TaskDef') (n : string) : Prop :=
  ∃ td d, td ∈ tds ∧ d ∈ declaredInputs td ∧ name d = n.

Definition writtenBy (tds : list TaskDef') (n : string) : Prop :=
  ∃ td d, td ∈ tds ∧ d ∈ declaredOutputs td ∧ name d = n.

(** [d] is the last declaration of its name by the last task of [tds]
    that declares this name at all. *)
Definition lastDeclared (tds : list TaskDef') (d : DatasetType) : Prop :=
  ∃ pre td post before after,
    tds = pre ++ td :: post ∧
    declared td = before ++ d :: after ∧
    (∀ d', d' ∈ after → name d' ≠ name d) ∧
    (∀ td' d', td' ∈ post → d' ∈ declared td' → name d' ≠ name d).

(** The entry of [allDatasetTypes] for [n] after the writes [ds]: the
    last dataset type of that name. *)
Definition lastWrite (n : string) (ds : list DatasetType) : option DatasetType :=
  last (filter (λ d, name d = n) ds).

(** The store holds a [TaskDef] with a loaded class behind every
    reference of [tasks]. *)
Definition resolvedAt (h : Heap) (tasks : list loc) (tds : list TaskDef') : Prop :=
  Forall2 (λ l td, h !! l = Some td ∧ is_Some (taskClass td)) tasks tds.

(** *** Vocabulary of the statements about [makeGraph] *)

(** The reference [l] is in use, and the object behind it has a class or
    the task factory of [self] answers for its name. *)
Definition loadable (self : GraphBuilder) (h : Heap) (l : loc) : Prop :=
  match h !! l with
  | None => False
  | Some td =>
      match taskClass td with
      | Some _ => True
      | None =>
          match loadTaskClass (taskFactory self) (taskName td) with
          | inr _ => True
          | inl _ => False
          end
      end
  end.

(** [l'] in the store [h'] is the loaded form of [l] in the store [h]:
    the same object if it had a class, else an object with the same
    config and label and a class. *)
Definition loadedFrom (h h' : Heap) (l l' : loc) : Prop :=
  ∃ td td',
    h !! l = Some td ∧ h' !! l' = Some td' ∧
    is_Some (taskClass td') ∧
    config td' = config td ∧ label td' = label td ∧
    (is_Some (taskClass td) → l' = l ∧ td' = td).

(** Dataset types of one name are one dataset type, across all
    declarations of [tds]. *)
Definition consistentNames (tds : list TaskDef') : Prop :=
  ∀ td td' d d',
    td ∈ tds → td' ∈ tds → d ∈ declared td → d' ∈ declared td' →
    name d = name d' → d = d'.

End Methods.

Arguments TaskFactory : clear implicits.
Arguments GraphBuilder : clear implicits.
Arguments M : clear implicits.
Arguments Locals : clear implicits.

End GraphBuilder.

(** ** pipeTools: dependency graph and ordering *)

Module PipeTools.

(** Modelled from the spec: the three failure kinds of spec section 7,
    with what each names. *)
Inductive PipelineError :=
| DuplicateOutputError (dsTypeName producer1 producer2 : string)
| MissingTaskFactoryError (taskLabel : string)
| PipelineDataCycleError (unordered : list string).

Section Ordering.
Context {DatasetType Config : Type}.
Context (name : DatasetType → string).

Abbreviation TaskClass' := (TaskClass DatasetType Config).
Abbreviation TaskDef' := (TaskDef DatasetType Config).
Abbreviation Pipeline := (list TaskDef').

(** Modelled from the spec: the task factory capability of spec
    section 6, [loadTaskClass(name) -> (class, canonicalName)]; a
    class that cannot be resolved is [None]. *)
Definition TaskFactory : Type := string → option (TaskClass' * string).

(** Modelled from the spec: [pipeTools._loadTaskClass] is not part of
    the sources; this is task class resolution as spec section 4.1
    words it.  A set class is the no-op fast path; otherwise the
    factory fills [taskClass] and [taskName] of a new [TaskDef]; no
    factory, or a factory that cannot resolve the name, is a
    [MissingTaskFactoryError] naming the task's label. *)
Definition _loadTaskClass (taskDef : TaskDef') (taskFactory : option TaskFactory)
    : PipelineError + TaskDef' :=
  match taskClass taskDef with
  | Some _ => inr taskDef
  | None =>
      match taskFactory with
      | None => inl (MissingTaskFactoryError (label taskDef))
      | Some factory =>
          match factory (taskName taskDef) with
          | None => inl (MissingTaskFactoryError (label taskDef))
          | Some (tClass, tName) =>
              inr (mkTaskDef tName (config taskDef) (Some tClass) (label taskDef))
          end
      end
  end.

(** Modelled from the spec: the precondition of spec section 4.2b,
    every task's class is resolved before the graph is built. *)
Fixpoint loadAll (pipeline : Pipeline) (taskFactory : option TaskFactory)
    : PipelineError + Pipeline :=
  match pipeline with
  | [] => inr []
  | taskDef :: rest =>
      match _loadTaskClass taskDef taskFactory with
      | inl e => inl e
      | inr taskDef =>
          match loadAll rest taskFactory with
          | inl e => inl e
          | inr tasks => inr (taskDef :: tasks)
          end
      end
  end.

(** Modelled from the spec: the names of [inputDatasetTypes] of spec
    section 4.2, read off the values that the class capability yields. *)
Definition inputDatasetTypes (taskDef : TaskDef') : list string :=
  match taskClass taskDef with
  | Some tClass => name <$> values (getInputDatasetTypes tClass (config taskDef))
  | None => []
  end.

(** Modelled from the spec: the names of [outputDatasetTypes] of spec
    section 4.2. *)
Definition outputDatasetTypes (taskDef : TaskDef') : list string :=
  match taskClass taskDef with
  | Some tClass => name <$> values (getOutputDatasetTypes tClass (config taskDef))
  | None => []
  end.

(** Modelled from the spec: the first pass of spec section 4.2 over all
    tasks, which fills [producer : datasetTypeName -> taskLabel] and
    fails with [DuplicateOutputError] as soon as a name already has a
    different producer. *)
Fixpoint declareOutputs (taskLabel : string) (names : list string)
    (producer : gmap string string) : PipelineError + gmap string string :=
  match names with
  | [] => inr producer
  | N :: names =>
      match producer !! N with
      | Some other =>
          if decide (other = taskLabel)
          then declareOutputs taskLabel names producer
          else inl (DuplicateOutputError N other taskLabel)
      | None => declareOutputs taskLabel names (<[N := taskLabel]> producer)
      end
  end.

(** Modelled from the spec: the pass of spec section 4.2 over all tasks,
    collecting every producer before any edge is built. *)
Fixpoint collectProducers (tasks : Pipeline) (producer : gmap string string)
    : PipelineError + gmap string string :=
  match tasks with
  | [] => inr producer
  | T :: tasks =>
      match declareOutputs (label T) (outputDatasetTypes T) producer with
      | inl e => inl e
      | inr producer => collectProducers tasks producer
      end
  end.

(** Modelled from the spec: the edges of spec section 4.2, for each
    task [T] and each input name [N] with [producer[N]] present and
    different from [T], the edge [producer[N] -> T]. *)
Definition incomingEdges (producer : gmap string string) (T : TaskDef')
    : list (string * string) :=
  N ← inputDatasetTypes T;
  match producer !! N with
  | Some P => if decide (P = label T) then [] else [(P, label T)]
  | None => []
  end.

(** Modelled from the spec: the edge set of spec section 4.2, pairs
    [(producerLabel, consumerLabel)]. *)
Definition buildEdges (producer : gmap string string) (tasks : Pipeline)
    : gset (string * string) :=
  list_to_set (T ← tasks; incomingEdges producer T).

(** Modelled from the spec: graph construction with its validation,
    shared by both entry points (spec sections 4.2, 4.2b and 4.3). *)
Definition buildGraph (pipeline : Pipeline) (taskFactory : option TaskFactory)
    : PipelineError + gset (string * string) :=
  match loadAll pipeline taskFactory with
  | inl e => inl e
  | inr tasks =>
      match collectProducers tasks ∅ with
      | inl e => inl e
      | inr producer => inr (buildEdges producer tasks)
      end
  end.

Section Kahn.
Context (edges : gset (string * string)).

(** Modelled from the spec: tasks are graph nodes through their labels
    (spec section 3). *)
Definition hasEdge (P C : TaskDef') : Prop := (label P, label C) ∈ edges.

#[global] Instance hasEdge_dec P C : Decision (hasEdge P C).
Proof. unfold hasEdge. apply _. Defined.

(** Modelled from the spec: the in-degree of a task (spec section 4.3),
    the number of tasks with an edge into it. *)
Definition inDegree (pipeline : Pipeline) (T : TaskDef') : nat :=
  length (filter (λ P, hasEdge P T) pipeline).

(** Modelled from the spec: the selection of spec section 4.3.  The
    tasks not yet emitted are kept in original order with their current
    in-degree, so the first one of in-degree zero is the one with the
    smallest original index. *)
Fixpoint selectReady (waiting : list (TaskDef' * nat))
    : option (TaskDef' * list (TaskDef' * nat)) :=
  match waiting with
  | [] => None
  | (T, d) :: rest =>
      if decide (d = 0) then Some (T, rest)
      else match selectReady rest with
           | Some (U, rest) => Some (U, (T, d) :: rest)
           | None => None
           end
  end.

(** Modelled from the spec: decrementing the in-degree of the successors
    of an emitted task (spec section 4.3). *)
Definition release (T : TaskDef') (waiting : list (TaskDef' * nat))
    : list (TaskDef' * nat) :=
  (λ w, if decide (hasEdge T w.1) then (w.1, pred w.2) else w) <$> waiting.

(** Modelled from the spec: the Kahn-style loop of spec section 4.3,
    select, emit, decrement, until all tasks are emitted or no task
    of in-degree zero remains.  Every round emits one task, so a
    pipeline needs at most as many rounds as it has tasks. *)
Fixpoint kahn (rounds : nat) (waiting : list (TaskDef' * nat))
    (emitted : Pipeline) : Pipeline * list (TaskDef' * nat) :=
  match rounds with
  | 0 => (emitted, waiting)
  | S rounds =>
      match selectReady waiting with
      | None => (emitted, waiting)
      | Some (T, rest) => kahn rounds (release T rest) (emitted ++ [T])
      end
  end.

(** Modelled from the spec: the position of a label in the pipeline as
    given, for the read-only check of spec section 4.3. *)
Definition indexOf (l : string) (pipeline : Pipeline) : option nat :=
  fst <$> list_find (λ T, label T = l) pipeline.

(** Modelled from the spec: the producer of an edge precedes its
    consumer (spec section 4.3). *)
Definition precedes (pipeline : Pipeline) (e : string * string) : Prop :=
  match indexOf e.1 pipeline, indexOf e.2 pipeline with
  | Some i, Some j => i < j
  | _, _ => False
  end.

#[global] Instance precedes_dec pipeline e : Decision (precedes pipeline e).
Proof. unfold precedes. repeat case_match; apply _. Defined.
End Kahn.

(** Modelled from the spec: the in-degree per task, computed from the
    edge set before the loop starts (spec section 4.3). *)
Definition annotate (edges : gset (string * string)) (pipeline : Pipeline)
    : list (TaskDef' * nat) :=
  (λ T, (T, inDegree edges pipeline T)) <$> pipeline.

(** Modelled from the spec: cycle detection of spec section 4.3; tasks
    left over when the loop has stopped are a [PipelineDataCycleError]. *)
Definition finish (state : Pipeline * list (TaskDef' * nat))
    : PipelineError + Pipeline :=
  match state with
  | (emitted, []) => inr emitted
  | (_, unordered) => inl (PipelineDataCycleError ((label ∘ fst) <$> unordered))
  end.

(** Modelled from the spec: [pipeTools.orderPipeline] (spec section
    4.3).  The result holds the caller's [TaskDef]s in the new order. *)
Definition orderPipeline (pipeline : Pipeline) (taskFactory : option TaskFactory)
    : PipelineError + Pipeline :=
  match buildGraph pipeline taskFactory with
  | inl e => inl e
  | inr edges =>
      finish (kahn edges (length pipeline) (annotate edges pipeline) [])
  end.

(** Modelled from the spec: [pipeTools.isPipelineOrdered] (spec
    section 4.3), the same graph construction and validation, then a
    read-only check that every producer precedes its consumers. *)
Definition isPipelineOrdered (pipeline : Pipeline) (taskFactory : option TaskFactory)
    : PipelineError + bool :=
  match buildGraph pipeline taskFactory with
  | inl e => inl e
  | inr edges => inr (bool_decide (set_Forall (precedes pipeline) edges))
  end.

(** *** Vocabulary of the statements about ordering *)

(** Dataset-type names a task of the caller's pipeline reads and writes,
    through its class once resolved. *)
Definition declaredInputs (taskFactory : option TaskFactory) (T : TaskDef')
    : list string :=
  match _loadTaskClass T taskFactory with
  | inr T => inputDatasetTypes T
  | inl _ => []
  end.

Definition declaredOutputs (taskFactory : option TaskFactory) (T : TaskDef')
    : list string :=
  match _loadTaskClass T taskFactory with
  | inr T => outputDatasetTypes T
  | inl _ => []
  end.

(** Every task has a class or gets one from the factory. *)
Definition resolvable (taskFactory : option TaskFactory) (pipeline : Pipeline) : Prop :=
  ∀ T, T ∈ pipeline → ∃ T', _loadTaskClass T taskFactory = inr T'.

(** The invariant of spec section 3: labels are unique within a pipeline. *)
Definition uniqueLabels (pipeline : Pipeline) : Prop :=
  NoDup (label <$> pipeline).

(** No dataset-type name is an output of two distinct tasks. *)
Definition duplicateFree (taskFactory : option TaskFactory) (pipeline : Pipeline) : Prop :=
  ∀ i j P Q N,
    pipeline !! i = Some P → pipeline !! j = Some Q →
    N ∈ declaredOutputs taskFactory P → N ∈ declaredOutputs taskFactory Q →
    i = j.

(** A dependency edge [P -> C]: some output name of [P] is an input name
    of the other task [C]. *)
Definition dependencyEdge (taskFactory : option TaskFactory) (P C : TaskDef') : Prop :=
  label P ≠ label C ∧
  ∃ N, N ∈ declaredOutputs taskFactory P ∧ N ∈ declaredInputs taskFactory C.

#[global] Instance dependencyEdge_dec `{EqDecision string} taskFactory P C :
  Decision (dependencyEdge taskFactory P C).
Proof.
  refine (cast_if (decide (label P ≠ label C ∧
            Exists (λ N, N ∈ declaredInputs taskFactory C)
                   (declaredOutputs taskFactory P))));
    unfold dependencyEdge; rewrite Exists_exists in *; naive_solver.
Defined.

(** The dependency graph of a pipeline and its cycles. *)
Definition dependsIn (taskFactory : option TaskFactory) (pipeline : Pipeline)
    (P C : TaskDef') : Prop :=
  P ∈ pipeline ∧ C ∈ pipeline ∧ dependencyEdge taskFactory P C.

Definition hasCycle (taskFactory : option TaskFactory) (pipeline : Pipeline) : Prop :=
  ∃ T, tc (dependsIn taskFactory pipeline) T T.

Definition acyclic (taskFactory : option TaskFactory) (pipeline : Pipeline) : Prop :=
  ∀ T, ¬ tc (dependsIn taskFactory pipeline) T T.

(** Every producer stands before its consumers. *)
Definition topologicallyOrdered (taskFactory : option TaskFactory)
    (pipeline : Pipeline) : Prop :=
  ∀ i j P C,
    pipeline !! i = Some P → pipeline !! j = Some C →
    dependencyEdge taskFactory P C → i < j.

(** With the tasks [emitted] so far: [U] is still to be emitted, and all
    tasks that [U] depends on are emitted. *)
Definition unemitted (emitted : Pipeline) (U : TaskDef') : Prop :=
  label U ∉ label <$> emitted.

Definition ready (taskFactory : option TaskFactory) (pipeline emitted : Pipeline)
    (U : TaskDef') : Prop :=
  ∀ P, P ∈ pipeline → dependencyEdge taskFactory P U → label P ∈ label <$> emitted.

(** *** The loop as a transition system *)

(** One round of the loop, on states [(emitted, waiting)]. *)
Inductive step (edges : gset (string * string))
    : Pipeline * list (TaskDef' * nat) → Pipeline * list (TaskDef' * nat) → Prop :=
| step_emit emitted waiting T rest :
    selectReady waiting = Some (T, rest) →
    step edges (emitted, waiting) (emitted ++ [T], release edges T rest).

(** The in-degrees of the waiting tasks count their waiting producers. *)
Definition degreesOK (edges : gset (string * string))
    (waiting : list (TaskDef' * nat)) : Prop :=
  Forall (λ w, w.2 = inDegree edges waiting.*1 w.1) waiting.

(** The order of a list agrees with the edge set. *)
Definition sortedBy (edges : gset (string * string)) (l : Pipeline) : Prop :=
  ∀ i j P C, l !! i = Some P → l !! j = Some C → hasEdge edges P C → i < j.

(** What every state of the loop satisfies. *)
Record invariant (edges : gset (string * string)) (pipeline : Pipeline)
    (state : Pipeline * list (TaskDef' * nat)) : Prop := mkInvariant {
  inv_degrees : degreesOK edges state.2;
  inv_perm : state.1 ++ state.2.*1 ≡ₚ pipeline;
  inv_order : state.2.*1 `sublist_of` pipeline;
  inv_closed : ∀ P C, P ∈ state.2.*1 → C ∈ state.1 → ¬ hasEdge edges P C;
  inv_sorted : sortedBy edges state.1
}.

End Ordering.

End PipeTools.

(** ** test_pipeTools.py: mocks *)

Module Tests.

(** [DS = namedtuple("DS", "name units")] *)
Record DS := mkDS { name : string; units : list string }.

#[global] Instance DS_eq_dec : EqDecision DS.
Proof. solve_decision. Defined.

#[global] Instance DS_countable : Countable DS.
Proof.
  apply (inj_countable' (λ d, (name d, units d)) (λ p, mkDS p.1 p.2)).
  by intros [].
Defined.

(** [InputDatasetConfig] / [OutputDatasetConfig]: the two fields the
    mock reads. *)
Record DatasetConfig := mkDatasetConfig { dc_name : string; dc_units : list string }.

Definition makeDatasetType (dsConfig : DatasetConfig) : DS :=
  mkDS (dc_name dsConfig) (dc_units dsConfig).

Record ExampleSuperTaskConfig := mkConfig {
  input1 : DatasetConfig;
  input2 : DatasetConfig;
  output1 : DatasetConfig;
  output2 : DatasetConfig
}.

(** A field left untouched by [_makeConfig] keeps an empty name. *)
Definition unset : DatasetConfig := mkDatasetConfig "" [].

Definition setNames (names : list string) : DatasetConfig * DatasetConfig :=
  match names with
  | [] => (unset, unset)
  | [n] => (mkDatasetConfig n [], unset)
  | n1 :: n2 :: _ => (mkDatasetConfig n1 [], mkDatasetConfig n2 [])
  end.

(** [_makeConfig(inputName, outputName)], a string being a list of one
    name and a tuple a list of up to two. *)
Definition _makeConfig (inputName outputName : list string) : ExampleSuperTaskConfig :=
  let '(i1, i2) := setNames inputName in
  let '(o1, o2) := setNames outputName in
  mkConfig i1 i2 o1 o2.

(** [ExampleSuperTask] *)
Definition ExampleSuperTask : TaskClass DS ExampleSuperTaskConfig :=
  mkTaskClass
    (λ config,
       let types := [("input1", makeDatasetType (input1 config))] in
       if decide (dc_name (input2 config) = "") then types
       else types ++ [("input2", makeDatasetType (input2 config))])
    (λ config,
       let types := [("output1", makeDatasetType (output1 config))] in
       if decide (dc_name (output2 config) = "") then types
       else types ++ [("output2", makeDatasetType (output2 config))]).

(** [_makePipeline(tasks)] with tuples
    [(inputs, outputs, label, klass)]. *)
Definition _makePipeline
    (tasks : list (list string * list string * string *
                   option (TaskClass DS ExampleSuperTaskConfig)))
    : list (TaskDef DS ExampleSuperTaskConfig) :=
  (λ '(inputs, outputs, label, klass),
     mkTaskDef "ExampleSuperTask" (_makeConfig inputs outputs) klass label) <$> tasks.

Definition task (inputs outputs : list string) (label : string) :=
  (inputs, outputs, label, Some ExampleSuperTask).

End Tests.

(** ** Example inputs *)

Module Examples.
Import Tests GraphBuilder.

Abbreviation ExampleTaskDef := (TaskDef DS ExampleSuperTaskConfig).

Definition canonicalName : string := "test_pipeTools.ExampleSuperTask".

(** A factory that knows [ExampleSuperTask], and one that knows nothing. *)
Definition exampleFactory : TaskFactory DS ExampleSuperTaskConfig :=
  mkTaskFactory
    (λ n, if decide (n = "ExampleSuperTask")
          then inr (ExampleSuperTask, canonicalName)
          else inl (FactoryError n)).

Definition brokenFactory : TaskFactory DS ExampleSuperTaskConfig :=
  mkTaskFactory (λ n, inl (FactoryError n)).

Definition builder : GraphBuilder DS ExampleSuperTaskConfig unit :=
  mkGraphBuilder exampleFactory () None.

Definition brokenBuilder : GraphBuilder DS ExampleSuperTaskConfig unit :=
  mkGraphBuilder brokenFactory () None.

(** The objects of a pipeline, at references [0], [1], ... *)
Definition allocate (tds : list ExampleTaskDef) : gmap nat ExampleTaskDef :=
  map_seq 0 tds.

(** [task1: A -> B], [task2: B -> C], classes not loaded. *)
Definition unloaded : list ExampleTaskDef :=
  _makePipeline [(["A"], ["B"], "task1", None); (["B"], ["C"], "task2", None)].

(** The diamond of the tests: [task1: A -> B, C], [task2: B -> D],
    [task3: C -> E], [task4: D, E -> F]. *)
Definition diamond : list ExampleTaskDef :=
  _makePipeline [task ["A"] ["B"; "C"] "task1"; task ["B"] ["D"] "task2";
                 task ["C"] ["E"] "task3"; task ["D"; "E"] ["F"] "task4"].

(** Two producers of [C] that disagree on its units, and a reader of [C]. *)
Definition twoProducers : list ExampleTaskDef :=
  [ mkTaskDef "ExampleSuperTask"
      (mkConfig (mkDatasetConfig "A" []) unset (mkDatasetConfig "C" ["visit"]) unset)
      (Some ExampleSuperTask) "task1";
    mkTaskDef "ExampleSuperTask"
      (mkConfig (mkDatasetConfig "B" []) unset (mkDatasetConfig "C" ["patch"]) unset)
      (Some ExampleSuperTask) "task2";
    mkTaskDef "ExampleSuperTask"
      (mkConfig (mkDatasetConfig "C" ["tract"]) unset (mkDatasetConfig "D" []) unset)
      (Some ExampleSuperTask) "task3" ].

(** The pipelines of [testIsOrdered], [testOrderPipeline] and of the
    exception tests. *)
Definition noFactory
    : option (PipeTools.TaskFactory (DatasetType := DS) (Config := ExampleSuperTaskConfig)) :=
  None.

Definition chain : list ExampleTaskDef :=
  _makePipeline [task ["A"] ["B"] "task1"; task ["B"] ["C"] "task2"].

Definition reversedChain : list ExampleTaskDef :=
  _makePipeline [task ["B"] ["C"] "task2"; task ["A"] ["B"] "task1"].

Definition swappedDiamond : list ExampleTaskDef :=
  _makePipeline [task ["A"] ["B"; "C"] "task1"; task ["C"] ["E"] "task3";
                 task ["B"] ["D"] "task2"; task ["D"; "E"] ["F"] "task4"].

Definition reversedDiamond : list ExampleTaskDef :=
  _makePipeline [task ["D"; "E"] ["F"] "task4"; task ["B"] ["D"] "task2";
                 task ["C"] ["E"] "task3"; task ["A"] ["B"; "C"] "task1"].

Definition reversedSwappedDiamond : list ExampleTaskDef :=
  _makePipeline [task ["D"; "E"] ["F"] "task4"; task ["C"] ["E"] "task3";
                 task ["B"] ["D"] "task2"; task ["A"] ["B"; "C"] "task1"].

Definition duplicated : list ExampleTaskDef :=
  _makePipeline [task ["A"] ["B"] "task1"; task ["B"] ["C"] "task2";
                 task ["A"] ["C"] "task3"].

Definition cyclic : list ExampleTaskDef :=
  _makePipeline [task ["A"] ["B"] "task1"; task ["B"] ["C"] "task2";
                 task ["C"] ["D"] "task3"; task ["D"] ["A"] "task4"].

(** [task1: A -> B] with its class, [task2: B -> C] without. *)
Definition halfLoaded : list ExampleTaskDef :=
  _makePipeline [task ["A"] ["B"] "task1"; (["B"], ["C"], "task2", None)].

(** The labels of a result, as the tests read them. *)
Definition labelsOf (r : PipeTools.PipelineError + list ExampleTaskDef)
    : PipeTools.PipelineError + list string :=
  match r with
  | inl e => inl e
  | inr l => inr (label <$> l)
  end.

(** Depth of a task of the diamond. *)
Definition diamondRank (l : string) : nat :=
  if decide (l = "task1") then 0 else if decide (l = "task4") then 2 else 1.

End Examples.


(** * Properties of graphBuilder.py *)

Section GraphBuilderProofs.
Import GraphBuilder.
Context {DatasetType Config Registry QuantumGraph : Type}.
Context `{Countable DatasetType}.
Context (name : DatasetType → string).

Abbreviation TaskDef' := (TaskDef DatasetType Config).
Abbreviation Heap := (gmap nat TaskDef').
Abbreviation GraphBuilder' := (GraphBuilder DatasetType Config Registry).

Implicit Types (h : Heap) (td : TaskDef') (self : GraphBuilder').
Implicit Types (tbl : gmap string DatasetType) (names : gset string).

(** Unfolding the monad. *)
Lemma bind_unfold {A B} (c : M DatasetType Config A) (k : A → M DatasetType Config B) h :
  (c ≫= k) h =
  match c h with (inl e, h') => (inl e, h') | (inr a, h') => k a h' end.
Proof. reflexivity. Qed.

Lemma getattr_Some {A} (field : TaskDef' → A) l h td :
  h !! l = Some td → getattr l field h = (inr (field td), h).
Proof. intros Hl. unfold getattr. by rewrite Hl. Qed.

(** ** [_loadTaskClass] *)

Lemma _loadTaskClass_loaded self l h td tClass :
  h !! l = Some td → taskClass td = Some tClass →
  _loadTaskClass self l h = (inr l, h).
Proof.
  intros Hl Hc. unfold _loadTaskClass.
  rewrite bind_unfold, (getattr_Some _ _ _ _ Hl), Hc. reflexivity.
Qed.

Lemma _loadTaskClass_failed self l h td e :
  h !! l = Some td → taskClass td = None →
  loadTaskClass (taskFactory self) (taskName td) = inl e →
  _loadTaskClass self l h = (inl e, h).
Proof.
  intros Hl Hc He. unfold _loadTaskClass.
  rewrite bind_unfold, (getattr_Some _ _ _ _ Hl), Hc.
  rewrite bind_unfold, (getattr_Some _ _ _ _ Hl).
  rewrite bind_unfold. unfold lift. by rewrite He.
Qed.

Lemma _loadTaskClass_resolved self l h td tClass tName :
  h !! l = Some td → taskClass td = None →
  loadTaskClass (taskFactory self) (taskName td) = inr (tClass, tName) →
  _loadTaskClass self l h =
    (inr (fresh (dom h)),
     <[fresh (dom h) := mkTaskDef tName (config td) (Some tClass) (label td)]> h).
Proof.
  intros Hl Hc He. unfold _loadTaskClass.
  rewrite bind_unfold, (getattr_Some _ _ _ _ Hl), Hc.
  rewrite bind_unfold, (getattr_Some _ _ _ _ Hl).
  rewrite bind_unfold. unfold lift. rewrite He.
  rewrite bind_unfold. unfold copy. rewrite Hl. cbn zeta.
  rewrite bind_unfold. unfold setattr at 1. rewrite lookup_insert_eq.
  rewrite bind_unfold. unfold setattr at 1. rewrite lookup_insert_eq.
  unfold ret. rewrite !insert_insert_eq. reflexivity.
Qed.

Lemma fresh_loc_unused h : h !! fresh (dom h) = None.
Proof. apply not_elem_of_dom, is_fresh. Qed.

(** ** The lookup table [allDatasetTypes] *)

Lemma lastWrite_nil n : lastWrite name n [] = None.
Proof. reflexivity. Qed.

Lemma lastWrite_cons n d ds :
  lastWrite name n (d :: ds) =
  match lastWrite name n ds with
  | Some d' => Some d'
  | None => if decide (name d = n) then Some d else None
  end.
Proof.
  unfold lastWrite. rewrite filter_cons. case_decide; [|by destruct (last _)].
  destruct (filter _ ds) as [|x l] eqn:E; [done|].
  rewrite last_cons. by destruct (last (x :: l)).
Qed.

Lemma lastWrite_app n ds1 ds2 :
  lastWrite name n (ds1 ++ ds2) =
  match lastWrite name n ds2 with
  | Some d => Some d
  | None => lastWrite name n ds1
  end.
Proof.
  induction ds1 as [|d ds1 IH]; simpl.
  - rewrite lastWrite_nil. by destruct (lastWrite _ _ _).
  - rewrite !lastWrite_cons, IH.
    destruct (lastWrite name n ds2); [done|]. reflexivity.
Qed.

Lemma lastWrite_None n ds :
  lastWrite name n ds = None ↔ ∀ d, d ∈ ds → name d ≠ n.
Proof.
  induction ds as [|d ds IH].
  - split; [intros _ d Hd; by apply elem_of_nil in Hd | done].
  - rewrite lastWrite_cons. split.
    + destruct (lastWrite name n ds) eqn:E; [done|]. case_decide; [done|].
      intros _ d' [->|Hd']%elem_of_cons; [done|]. by apply IH.
    + intros Hall.
      assert (lastWrite name n ds = None) as ->.
      { apply IH. intros d' Hd'. apply Hall. by right. }
      case_decide as Hn; [|done]. exfalso. eapply Hall; [|exact Hn]. by left.
Qed.

Lemma lastWrite_Some n ds d :
  lastWrite name n ds = Some d ↔
  name d = n ∧ ∃ before after,
    ds = before ++ d :: after ∧ ∀ d', d' ∈ after → name d' ≠ n.
Proof.
  revert d. induction ds as [|d0 ds IH]; intros d.
  - split; [done|]. intros (_ & b & a & E & _). by destruct b.
  - rewrite lastWrite_cons. destruct (lastWrite name n ds) as [d1|] eqn:E.
    + split.
      * intros [= <-]. destruct (proj1 (IH d1) eq_refl) as (Hn & b & a & -> & Ha).
        split; [done|]. by exists (d0 :: b), a.
      * intros (Hn & b & a & Eq & Ha). f_equal.
        destruct b as [|x b]; simplify_eq/=.
        -- apply lastWrite_None in Ha. congruence.
        -- assert (Some d1 = Some d) as E'; [|congruence].
           apply IH. split; [done|]. by exists b, a.
    + split.
      * case_decide as Hn; [|done]. intros [= <-]. split; [done|].
        exists [], ds. split; [done|]. by apply lastWrite_None.
      * intros (Hn & b & a & Eq & Ha).
        destruct b as [|x b]; simplify_eq/=.
        -- by rewrite decide_True.
        -- exfalso. eapply (proj1 (lastWrite_None _ _) E d); [|done].
           apply elem_of_app. right. by left.
Qed.

Lemma lastWrite_is_Some n ds d :
  d ∈ ds → name d = n → is_Some (lastWrite name n ds).
Proof.
  intros Hd Hn. destruct (lastWrite name n ds) eqn:E; [by eexists|].
  exfalso. by eapply lastWrite_None.
Qed.

Lemma lastWrite_elem n ds d :
  lastWrite name n ds = Some d → d ∈ ds ∧ name d = n.
Proof.
  intros (Hn & b & a & -> & _)%lastWrite_Some. split; [|done].
  apply elem_of_app. right. by left.
Qed.

(** The table after a run of writes holds, for each name, the last
    dataset type written under it. *)
Lemma table_lookup tbl ds n :
  foldl (λ m d, <[name d := d]> m) tbl ds !! n =
  match lastWrite name n ds with
  | Some d => Some d
  | None => tbl !! n
  end.
Proof.
  revert tbl. induction ds as [|d ds IH]; intros tbl; [done|].
  simpl. rewrite IH, lastWrite_cons.
  destruct (lastWrite name n ds); [done|].
  rewrite lookup_insert. case_decide; by simplify_eq.
Qed.

Lemma record_foldl names tbl ds :
  foldl (record name) (names, tbl) ds =
  (list_to_set (name <$> ds) ∪ names, foldl (λ m d, <[name d := d]> m) tbl ds).
Proof.
  revert names tbl. induction ds as [|d ds IH]; intros names tbl; simpl.
  - f_equal. set_solver.
  - unfold record at 2. simpl. rewrite IH. f_equal. set_solver.
Qed.

Lemma recordAll_eq (d : list (string * DatasetType)) names tbl :
  recordAll name d names tbl =
  (list_to_set (name <$> values d) ∪ names,
   foldl (λ m d, <[name d := d]> m) tbl (values d)).
Proof.
  unfold recordAll. destruct d as [|x d]; simpl truthy; cbv iota.
  - simpl. f_equal. set_solver.
  - apply record_foldl.
Qed.

(** The last write, located in the task list. *)
Lemma lastWrite_tasks (tds : list TaskDef') n d :
  lastWrite name n (tds ≫= declared) = Some d ↔
  name d = n ∧ lastDeclared name tds d.
Proof.
  split.
  - revert d. induction tds as [|td tds IH]; intros d; [done|].
    change ((td :: tds) ≫= declared) with (declared td ++ (tds ≫= declared)).
    rewrite lastWrite_app.
    destruct (lastWrite name n (tds ≫= declared)) as [d'|] eqn:E.
    + intros [= ->]. destruct (IH _ eq_refl) as (Hn & pre & td' & post & b & a & -> & ?).
      split; [done|]. by exists (td :: pre), td', post, b, a.
    + intros (Hn & b & a & Hd & Ha)%lastWrite_Some. split; [done|].
      exists [], td, tds, b, a. split_and!; [done|done|by rewrite Hn|].
      intros td' d' Htd' Hd'. rewrite Hn.
      apply (proj1 (lastWrite_None _ _) E). apply list_elem_of_bind. eauto.
  - intros (Hn & pre & td & post & b & a & -> & Hd & Ha & Hpost).
    rewrite bind_app.
    change ((td :: post) ≫= declared) with (declared td ++ (post ≫= declared)).
    rewrite !lastWrite_app.
    assert (lastWrite name n (post ≫= declared) = None) as ->.
    { apply lastWrite_None. intros d' (td' & ? & ?)%list_elem_of_bind.
      rewrite <- Hn. eauto. }
    assert (lastWrite name n (declared td) = Some d) as ->; [|done].
    apply lastWrite_Some. split; [done|]. exists b, a. by rewrite <- Hn.
Qed.

(** ** The loop of [buildIODatasets] *)

Lemma visit_resolved h l td vars :
  h !! l = Some td → is_Some (taskClass td) →
  visit name vars l h =
    (inr (mkLocals
            (foldl (λ m d, <[name d := d]> m) (allDatasetTypes vars) (declared td))
            (list_to_set (name <$> declaredInputs td) ∪ inputs vars)
            (list_to_set (name <$> declaredOutputs td) ∪ outputs vars)), h).
Proof.
  intros Hl [tClass Hc]. unfold visit.
  rewrite bind_unfold, (getattr_Some _ _ _ _ Hl), Hc.
  rewrite bind_unfold, (getattr_Some _ _ _ _ Hl).
  rewrite bind_unfold, (getattr_Some _ _ _ _ Hl).
  rewrite !recordAll_eq. unfold ret, declared, declaredInputs, declaredOutputs.
  rewrite Hc, foldl_app. reflexivity.
Qed.

Lemma visit_unresolved h l td vars :
  h !! l = Some td → taskClass td = None →
  visit name vars l h = (inl (AttributeError "NoneType" "getInputDatasetTypes"), h).
Proof.
  intros Hl Hc. unfold visit.
  rewrite bind_unfold, (getattr_Some _ _ _ _ Hl), Hc. reflexivity.
Qed.

Lemma foldM_visit h tasks tds vars :
  resolvedAt h tasks tds →
  foldM (visit name) vars tasks h =
    (inr (mkLocals
            (foldl (λ m d, <[name d := d]> m) (allDatasetTypes vars) (tds ≫= declared))
            (list_to_set (name <$> (tds ≫= declaredInputs)) ∪ inputs vars)
            (list_to_set (name <$> (tds ≫= declaredOutputs)) ∪ outputs vars)), h).
Proof.
  intros Hres. revert vars.
  induction Hres as [|l td tasks tds [Hl Hc] _ IH]; intros vars.
  - simpl. unfold ret. destruct vars. do 2 f_equal. f_equal; set_solver.
  - cbn [foldM]. rewrite bind_unfold, (visit_resolved _ _ _ _ Hl Hc), IH.
    cbn [allDatasetTypes inputs outputs]. do 2 f_equal.
    simpl. rewrite foldl_app, !fmap_app, !list_to_set_app_L.
    f_equal; set_solver.
Qed.

Lemma lookupAll_ok tbl (ns : list string) :
  (∀ n, n ∈ ns → is_Some (tbl !! n)) →
  ∃ S : gset DatasetType,
    lookupAll tbl ns = inr S ∧
    ∀ d, d ∈ S ↔ ∃ n, n ∈ ns ∧ tbl !! n = Some d.
Proof.
  induction ns as [|n ns IH]; intros Hns.
  - exists ∅. split; [done|]. intros d. split; [set_solver|].
    intros (n & Hn & _). by apply elem_of_nil in Hn.
  - destruct (Hns n) as [d0 Hd0]; [by left|].
    destruct IH as (S & HS & Hmem); [intros; apply Hns; by right|].
    exists ({[d0]} ∪ S). simpl. rewrite Hd0, HS. split; [done|].
    intros d. rewrite elem_of_union, elem_of_singleton, Hmem. split.
    + intros [->|(n' & ? & ?)]; [exists n|exists n']; split; try done; by constructor.
    + intros (n' & [->|?]%elem_of_cons & Hd); [left; congruence|right; eauto].
Qed.

Lemma writtenBy_elem (tds : list TaskDef') n :
  writtenBy name tds n ↔ n ∈ name <$> (tds ≫= declaredOutputs).
Proof.
  unfold writtenBy. rewrite list_elem_of_fmap. setoid_rewrite list_elem_of_bind.
  naive_solver.
Qed.

Lemma readBy_elem (tds : list TaskDef') n :
  readBy name tds n ↔ n ∈ name <$> (tds ≫= declaredInputs).
Proof.
  unfold readBy. rewrite list_elem_of_fmap. setoid_rewrite list_elem_of_bind.
  naive_solver.
Qed.

Lemma declared_lastWrite (tds : list TaskDef') td d0 :
  td ∈ tds → d0 ∈ declared td →
  ∃ d, lastWrite name (name d0) (tds ≫= declared) = Some d.
Proof.
  intros Htd Hd0. apply (lastWrite_is_Some _ _ d0); [|done].
  apply list_elem_of_bind. eauto.
Qed.

(** What [buildIODatasets] returns on loaded task classes: the entries
    of the table for the output names, and for the input names that are
    not output names. *)
Lemma buildIODatasets_result self tasks tds h :
  resolvedAt h tasks tds →
  ∃ ins outs,
    buildIODatasets name self tasks h = (inr (ins, outs), h) ∧
    (∀ d, d ∈ outs ↔ writtenBy name tds (name d) ∧ lastDeclared name tds d) ∧
    (∀ d, d ∈ ins ↔ readBy name tds (name d) ∧ ¬ writtenBy name tds (name d) ∧
                    lastDeclared name tds d).
Proof.
  intros Hres. unfold buildIODatasets.
  rewrite bind_unfold, (foldM_visit _ _ _ _ Hres).
  cbn [allDatasetTypes inputs outputs].
  set (tbl := foldl _ ∅ _).
  set (I := list_to_set (name <$> tds ≫= declaredInputs) ∪ ∅ : gset string).
  set (O := list_to_set (name <$> tds ≫= declaredOutputs) ∪ ∅ : gset string).
  assert (∀ n, tbl !! n = lastWrite name n (tds ≫= declared)) as Htbl.
  { intros n. unfold tbl. rewrite table_lookup, lookup_empty.
    by destruct (lastWrite _ _ _). }
  assert (∀ n, n ∈ I ↔ readBy name tds n) as HI.
  { intros n. rewrite readBy_elem. unfold I. set_solver. }
  assert (∀ n, n ∈ O ↔ writtenBy name tds n) as HO.
  { intros n. rewrite writtenBy_elem. unfold O. set_solver. }
  destruct (lookupAll_ok tbl (elements (I ∖ O))) as (ins & Hins & Hin).
  { intros n [(td & d & ? & ? & <-)%HI _]%elem_of_elements%elem_of_difference.
    rewrite Htbl. apply (declared_lastWrite tds td d); [done|].
    apply elem_of_app. by left. }
  destruct (lookupAll_ok tbl (elements O)) as (outs & Houts & Hout).
  { intros n (td & d & ? & ? & <-)%elem_of_elements%HO.
    rewrite Htbl. apply (declared_lastWrite tds td d); [done|].
    apply elem_of_app. by right. }
  exists ins, outs. split.
  { rewrite bind_unfold. unfold lift at 1. rewrite Hins.
    rewrite bind_unfold. unfold lift at 1. by rewrite Houts. }
  split; intros d.
  - rewrite Hout. setoid_rewrite elem_of_elements. setoid_rewrite Htbl.
    setoid_rewrite lastWrite_tasks. setoid_rewrite HO. naive_solver.
  - rewrite Hin. setoid_rewrite elem_of_elements. setoid_rewrite Htbl.
    setoid_rewrite lastWrite_tasks. setoid_rewrite elem_of_difference.
    setoid_rewrite HO. setoid_rewrite HI. naive_solver.
Qed.

Lemma lastDeclared_unique (tds : list TaskDef') d d' :
  lastDeclared name tds d → lastDeclared name tds d' → name d = name d' → d = d'.
Proof.
  intros Hd Hd' Hn.
  assert (lastWrite name (name d) (tds ≫= declared) = Some d) as E
    by by apply lastWrite_tasks.
  assert (lastWrite name (name d) (tds ≫= declared) = Some d') as E'
    by by apply lastWrite_tasks.
  congruence.
Qed.

Lemma lastDeclared_exists (tds : list TaskDef') td d0 :
  td ∈ tds → d0 ∈ declared td →
  ∃ d, name d = name d0 ∧ lastDeclared name tds d.
Proof.
  intros Htd Hd0. destruct (declared_lastWrite tds td d0) as [d Hd]; [done..|].
  exists d. by apply lastWrite_tasks.
Qed.

(** ** Statements about [buildIODatasets] *)

(** C6. On a task list whose classes are all loaded, [buildIODatasets]
    returns a pair [(ins, outs)] and leaves the store alone.  [outs]
    holds, for every name that some task declares as an output, the
    table's dataset type of that name; [ins] holds the same for every
    name that some task declares as an input and no task declares as an
    output.  Hence a name is an output name of the result exactly if some
    task writes it, an input name exactly if some task reads it and none
    writes it, and no name is on both sides. *)
Theorem buildIODatasets_partition self tasks tds h :
  resolvedAt h tasks tds →
  ∃ ins outs,
    buildIODatasets name self tasks h = (inr (ins, outs), h) ∧
    (∀ d, d ∈ outs ↔ writtenBy name tds (name d) ∧ lastDeclared name tds d) ∧
    (∀ d, d ∈ ins ↔ readBy name tds (name d) ∧ ¬ writtenBy name tds (name d) ∧
                    lastDeclared name tds d) ∧
    (∀ n, (∃ d, d ∈ outs ∧ name d = n) ↔ writtenBy name tds n) ∧
    (∀ n, (∃ d, d ∈ ins ∧ name d = n) ↔
          readBy name tds n ∧ ¬ writtenBy name tds n) ∧
    (∀ d1 d2, d1 ∈ ins → d2 ∈ outs → name d1 ≠ name d2).
Proof.
  intros Hres.
  destruct (buildIODatasets_result self tasks tds h Hres)
    as (ins & outs & Hrun & Hout & Hin).
  exists ins, outs. split_and!; try done.
  - intros n. split.
    + intros (d & [? _]%Hout & <-). done.
    + intros Hw. pose proof Hw as (td & d0 & Htd & Hd0 & <-).
      destruct (lastDeclared_exists tds td d0) as (d & Hn & Hlast); [done| |].
      { apply elem_of_app. by right. }
      exists d. split; [|done]. apply Hout. by rewrite Hn.
  - intros n. split.
    + intros (d & (? & ? & _)%Hin & <-). done.
    + intros [Hr Hw]. pose proof Hr as (td & d0 & Htd & Hd0 & <-).
      destruct (lastDeclared_exists tds td d0) as (d & Hn & Hlast); [done| |].
      { apply elem_of_app. by left. }
      exists d. split; [|done]. apply Hin. by rewrite Hn.
  - intros d1 d2 (_ & Hnw & _)%Hin (Hw & _)%Hout Hn. apply Hnw. by rewrite Hn.
Qed.

(** C7. Two distinct tasks that declare the same output name [n] raise
    nothing: [buildIODatasets] returns, exactly one member of the outputs
    set has the name [n], and it is the last dataset type of that name
    declared (as an input or an output) by the last task in iteration
    order that declares the name. *)
Theorem buildIODatasets_duplicate_outputs self tasks tds h n i j P Q :
  resolvedAt h tasks tds →
  i ≠ j → tds !! i = Some P → tds !! j = Some Q →
  n ∈ name <$> declaredOutputs P → n ∈ name <$> declaredOutputs Q →
  ∃ ins outs d,
    buildIODatasets name self tasks h = (inr (ins, outs), h) ∧
    d ∈ outs ∧ name d = n ∧
    (∀ d', d' ∈ outs → name d' = n → d' = d) ∧
    lastDeclared name tds d.
Proof.
  intros Hres _ HP _ (d0 & -> & Hd0)%list_elem_of_fmap _.
  destruct (buildIODatasets_result self tasks tds h Hres)
    as (ins & outs & Hrun & Hout & _).
  apply list_elem_of_lookup_2 in HP.
  destruct (lastDeclared_exists tds P d0) as (d & Hn & Hlast); [done| |].
  { apply elem_of_app. by right. }
  exists ins, outs, d. split_and!; try done.
  - apply Hout. split; [|done]. rewrite Hn. by exists P, d0.
  - intros d' [_ Hlast']%Hout Hn'. apply (lastDeclared_unique tds); congruence.
Qed.

(** C8, as the code has it.  [buildIODatasets] resolves no class: at the
    first [TaskDef] whose [taskClass] is [None] it raises an
    [AttributeError], before that task's dataset types are read, with
    the store untouched and whatever the task factory of [self] would
    have answered. *)
Theorem buildIODatasets_unresolved_class self pre taskDef post tds td h :
  resolvedAt h pre tds →
  h !! taskDef = Some td → taskClass td = None →
  buildIODatasets name self (pre ++ taskDef :: post) h =
    (inl (AttributeError "NoneType" "getInputDatasetTypes"), h).
Proof.
  intros Hres Hl Hc. unfold buildIODatasets. rewrite bind_unfold.
  assert (∀ vars, foldM (visit name) vars (pre ++ taskDef :: post) h =
                  (inl (AttributeError "NoneType" "getInputDatasetTypes"), h)) as ->; [|done].
  induction Hres as [|l td' pre tds [Hl' Hc'] _ IH]; intros vars.
  - cbn [app foldM]. by rewrite bind_unfold, (visit_unresolved _ _ _ _ Hl Hc).
  - cbn [app foldM]. by rewrite bind_unfold, (visit_resolved _ _ _ _ Hl' Hc'), IH.
Qed.

(** ** Statements about [_loadTaskClass] and [makeGraph] *)

(** C9. [_loadTaskClass] leaves the object behind the reference it is
    given, and every other object of the store, as it was.  With a class
    already set it returns the same reference and the same store.  With
    no class and a factory answer [(tClass, tName)] it returns a
    reference that was not in use, to an object that has the config and
    label of the original and the factory's class and name. *)
Theorem _loadTaskClass_never_mutates self (taskDef : nat) h td :
  h !! taskDef = Some td →
  ∃ r h',
    _loadTaskClass self taskDef h = (r, h') ∧
    h' !! taskDef = Some td ∧
    (∀ l v, h !! l = Some v → h' !! l = Some v) ∧
    match taskClass td with
    | Some _ => r = inr taskDef ∧ h' = h
    | None =>
        match loadTaskClass (taskFactory self) (taskName td) with
        | inr (tClass, tName) =>
            ∃ l', r = inr l' ∧ l' ≠ taskDef ∧ h !! l' = None ∧
                  h' = <[l' := mkTaskDef tName (config td) (Some tClass) (label td)]> h
        | inl e => r = inl e ∧ h' = h
        end
    end.
Proof.
  intros Hl. destruct (taskClass td) as [tClass|] eqn:Hc.
  - exists (inr taskDef), h. by rewrite (_loadTaskClass_loaded _ _ _ _ _ Hl Hc).
  - destruct (loadTaskClass (taskFactory self) (taskName td)) as [e|[tClass tName]] eqn:Hf.
    + exists (inl e), h. by rewrite (_loadTaskClass_failed _ _ _ _ _ Hl Hc Hf).
    + pose proof (fresh_loc_unused h) as Hfresh.
      assert (fresh (dom h) ≠ taskDef) as Hne by congruence.
      eexists _, _. rewrite (_loadTaskClass_resolved _ _ _ _ _ _ Hl Hc Hf).
      split_and!; [done|by rewrite lookup_insert_ne| |].
      * intros l v Hv. rewrite lookup_insert_ne; [done|congruence].
      * by eexists.
Qed.

(** C10. Whenever loading the classes and extracting the dataset types
    both succeed, [makeGraph] returns [None]. *)
Theorem makeGraph_returns_None self pipeline h taskList h1 io h2 :
  mapM (_loadTaskClass self) pipeline h = (inr taskList, h1) →
  buildIODatasets name self taskList h1 = (inr io, h2) →
  makeGraph (QuantumGraph := QuantumGraph) name self pipeline h = (inr None, h2).
Proof.
  intros Hload Hio. unfold makeGraph.
  rewrite bind_unfold, Hload, bind_unfold, Hio. by destruct io.
Qed.

(** No run of [makeGraph] returns a graph. *)
Lemma makeGraph_no_graph self pipeline h g h' :
  makeGraph (QuantumGraph := QuantumGraph) name self pipeline h = (inr g, h') →
  g = None.
Proof.
  unfold makeGraph. rewrite bind_unfold.
  destruct (mapM _ _ _) as [[e|taskList] h1]; [done|].
  rewrite bind_unfold.
  destruct (buildIODatasets _ _ _ _) as [[e|[ins outs]] h2]; [done|].
  unfold _makeGraph, ret. congruence.
Qed.

End GraphBuilderProofs.

(** ** The statements at concrete inputs *)

Section GraphBuilderExamples.
Import Tests Examples GraphBuilder.

Local Ltac resolved :=
  repeat (apply List.Forall2_cons; [split; [reflexivity | eexists; reflexivity]|]);
  apply List.Forall2_nil.

Lemma buildIODatasets_partition_witness :
  resolvedAt (allocate diamond) [0; 1; 2; 3] diamond ∧
  ∃ ins outs,
    buildIODatasets name builder [0; 1; 2; 3] (allocate diamond)
      = (inr (ins, outs), allocate diamond) ∧
    (∀ n, (∃ d, d ∈ outs ∧ name d = n) ↔ writtenBy name diamond n) ∧
    (∀ d1 d2, d1 ∈ ins → d2 ∈ outs → name d1 ≠ name d2).
Proof.
  assert (resolvedAt (allocate diamond) [0; 1; 2; 3] diamond) as Hres by resolved.
  split; [exact Hres|].
  destruct (buildIODatasets_partition name builder _ _ _ Hres)
    as (ins & outs & Hrun & _ & _ & Hout & _ & Hdisj).
  by exists ins, outs.
Defined.

(** The diamond reads [A] from outside and writes [B] to [F]. *)
Example buildIODatasets_diamond :
  (buildIODatasets name builder [0; 1; 2; 3] (allocate diamond)).1 =
  inr ({[mkDS "A" []]},
       {[mkDS "B" []; mkDS "C" []; mkDS "D" []; mkDS "E" []; mkDS "F" []]}).
Proof. vm_compute. reflexivity. Qed.

Lemma buildIODatasets_duplicate_outputs_witness :
  resolvedAt (allocate twoProducers) [0; 1; 2] twoProducers ∧
  ∃ ins outs d,
    buildIODatasets name builder [0; 1; 2] (allocate twoProducers)
      = (inr (ins, outs), allocate twoProducers) ∧
    d ∈ outs ∧ name d = "C" ∧
    (∀ d', d' ∈ outs → name d' = "C" → d' = d) ∧
    lastDeclared name twoProducers d.
Proof.
  assert (resolvedAt (allocate twoProducers) [0; 1; 2] twoProducers) as Hres
    by resolved.
  split; [exact Hres|].
  eapply (buildIODatasets_duplicate_outputs name builder _ _ _ "C" 0 1 _ _ Hres);
    [lia | reflexivity | reflexivity | vm_compute; left | vm_compute; left].
Defined.

(** Both producers of [C] run before the reader [task3], whose input
    declaration is the last write under that name. *)
Example buildIODatasets_twoProducers :
  (buildIODatasets name builder [0; 1; 2] (allocate twoProducers)).1 =
  inr ({[mkDS "A" []; mkDS "B" []]}, {[mkDS "C" ["tract"]; mkDS "D" []]}).
Proof. vm_compute. reflexivity. Qed.

Lemma buildIODatasets_unresolved_class_witness :
  buildIODatasets name builder [0; 1] (allocate unloaded) =
    (inl (AttributeError "NoneType" "getInputDatasetTypes"), allocate unloaded).
Proof.
  apply (buildIODatasets_unresolved_class name builder [] 0 [1] []
           (mkTaskDef "ExampleSuperTask" (_makeConfig ["A"] ["B"]) None "task1"));
    [apply List.Forall2_nil | reflexivity | reflexivity].
Defined.

(** Resolving the class of the first task fails in the factory, with the
    factory's error; [buildIODatasets] on the same store fails with an
    [AttributeError] instead.  With a factory that does resolve the
    class, [buildIODatasets] fails all the same. *)
Lemma buildIODatasets_delegation_counterexample :
  (_loadTaskClass brokenBuilder 0 (allocate unloaded)).1
    = inl (FactoryError "ExampleSuperTask") ∧
  (buildIODatasets name brokenBuilder [0; 1] (allocate unloaded)).1
    = inl (AttributeError "NoneType" "getInputDatasetTypes") ∧
  (_loadTaskClass builder 0 (allocate unloaded)).1 = inr 2 ∧
  (buildIODatasets name builder [0; 1] (allocate unloaded)).1
    = inl (AttributeError "NoneType" "getInputDatasetTypes").
Proof. split_and!; vm_compute; reflexivity. Qed.

Lemma _loadTaskClass_never_mutates_witness :
  ∃ r h',
    _loadTaskClass builder 0 (allocate unloaded) = (r, h') ∧
    h' !! 0 = allocate unloaded !! 0 ∧
    r = inr 2 ∧
    h' !! 2 = Some (mkTaskDef canonicalName (_makeConfig ["A"] ["B"])
                      (Some ExampleSuperTask) "task1").
Proof.
  destruct (_loadTaskClass_never_mutates builder 0 (allocate unloaded)
              (mkTaskDef "ExampleSuperTask" (_makeConfig ["A"] ["B"]) None "task1")
              eq_refl)
    as (r & h' & Hrun & Hsame & _ & l' & -> & _ & _ & ->).
  exists (inr l'), (<[l' := mkTaskDef canonicalName (_makeConfig ["A"] ["B"])
                     (Some ExampleSuperTask) "task1"]> (allocate unloaded)).
  assert (l' = 2) as -> by (vm_compute in Hrun; congruence).
  split_and!; [exact Hrun | exact Hsame | reflexivity | apply lookup_insert_eq].
Defined.

Lemma makeGraph_returns_None_witness :
  ∃ h, makeGraph (QuantumGraph := unit) name builder [0; 1] (allocate unloaded)
       = (inr None, h).
Proof.
  eexists.
  eapply (makeGraph_returns_None name builder [0; 1] (allocate unloaded));
    vm_compute; reflexivity.
Defined.

End GraphBuilderExamples.

(** * Properties of the ordering *)

Section LoopProofs.
Import PipeTools.
Context {DatasetType Config : Type}.
Context (edges : gset (string * string)).

Abbreviation TaskDef' := (TaskDef DatasetType Config).
Abbreviation State := (list TaskDef' * list (TaskDef' * nat))%type.

Implicit Types (T U P C : TaskDef') (waiting rest : list (TaskDef' * nat)).
Implicit Types (emitted pipeline : list TaskDef') (s : State).

(** ** Selection *)

Lemma selectReady_Some waiting T rest :
  selectReady waiting = Some (T, rest) →
  ∃ l1 l2, waiting = l1 ++ (T, 0) :: l2 ∧ rest = l1 ++ l2 ∧
           Forall (λ w, w.2 ≠ 0) l1.
Proof.
  revert rest. induction waiting as [|[U d] waiting IH]; intros rest; [done|].
  simpl. case_decide as Hd.
  - intros [= -> <-]. subst d. by exists [], waiting.
  - destruct (selectReady waiting) as [[U' rest']|]; [|done].
    intros [= -> <-]. destruct (IH _ eq_refl) as (l1 & l2 & -> & -> & Hl1).
    exists ((U, d) :: l1), l2. split_and!; [done..|]. by constructor.
Qed.

Lemma selectReady_None waiting :
  selectReady waiting = None ↔ Forall (λ w, w.2 ≠ 0) waiting.
Proof.
  induction waiting as [|[U d] waiting IH]; [done|].
  simpl. case_decide as Hd.
  - split; [done|]. by intros [? _]%Forall_cons.
  - destruct (selectReady waiting) as [[U' rest']|].
    + split; [done|]. intros [_ Hw]%Forall_cons. by apply IH in Hw.
    + split; [|done]. intros _. constructor; [done|]. by apply IH.
Qed.

Lemma release_fst T waiting : (release edges T waiting).*1 = waiting.*1.
Proof.
  unfold release. rewrite <- list_fmap_compose. apply list_fmap_ext.
  intros _ w _. simpl. by case_decide.
Qed.

Lemma release_length T waiting : length (release edges T waiting) = length waiting.
Proof. unfold release. by rewrite length_fmap. Qed.

(** ** In-degrees *)

Lemma inDegree_app l1 l2 U :
  inDegree edges (l1 ++ l2) U = inDegree edges l1 U + inDegree edges l2 U.
Proof. unfold inDegree. by rewrite filter_app, length_app. Qed.

Lemma inDegree_cons T l U :
  inDegree edges (T :: l) U =
  (if decide (hasEdge edges T U) then 1 else 0) + inDegree edges l U.
Proof. unfold inDegree. rewrite filter_cons. by case_decide. Qed.

Lemma inDegree_zero l U :
  inDegree edges l U = 0 ↔ ∀ P, P ∈ l → ¬ hasEdge edges P U.
Proof.
  unfold inDegree. rewrite length_zero_iff_nil. split.
  - intros Hnil P HP HE. assert (P ∈ filter (λ P, hasEdge edges P U) l) as Hin
      by by apply list_elem_of_filter.
    rewrite Hnil in Hin. by apply elem_of_nil in Hin.
  - intros Hall. destruct (filter _ l) as [|P l'] eqn:E; [done|].
    assert (P ∈ filter (λ P, hasEdge edges P U) l) as [HE HP]%list_elem_of_filter
      by (rewrite E; by left).
    by destruct (Hall P HP).
Qed.

Lemma degreesOK_release l1 l2 T :
  degreesOK edges (l1 ++ (T, 0) :: l2) →
  degreesOK edges (release edges T (l1 ++ l2)).
Proof.
  unfold degreesOK. rewrite release_fst. intros Hok.
  apply Forall_fmap, Forall_forall. intros w Hw.
  assert (w ∈ l1 ++ (T, 0) :: l2) as Hw'.
  { apply elem_of_app in Hw as [?|?]; apply elem_of_app; [by left|by right; right]. }
  rewrite Forall_forall in Hok. specialize (Hok w Hw').
  rewrite fmap_app, fmap_cons, inDegree_app, inDegree_cons in Hok. simpl in Hok.
  unfold compose. rewrite fmap_app, inDegree_app.
  destruct (decide (hasEdge edges T w.1)); simpl; lia.
Qed.

Lemma degreesOK_annotate pipeline : degreesOK edges (annotate edges pipeline).
Proof.
  unfold degreesOK, annotate. apply Forall_fmap, Forall_forall. intros T _.
  simpl. rewrite <- list_fmap_compose. f_equal. symmetry. apply list_fmap_id.
Qed.

Lemma annotate_fst pipeline : (annotate edges pipeline).*1 = pipeline.
Proof. unfold annotate. rewrite <- list_fmap_compose. apply list_fmap_id. Qed.

(** A task of in-degree zero has no producer among the waiting tasks. *)
Lemma degreesOK_ready waiting T :
  degreesOK edges waiting → (T, 0) ∈ waiting →
  ∀ P, P ∈ waiting.*1 → ¬ hasEdge edges P T.
Proof.
  intros Hok HT. unfold degreesOK in Hok. rewrite Forall_forall in Hok.
  specialize (Hok _ HT). simpl in Hok. by apply inDegree_zero.
Qed.

(** ** The invariant *)

Lemma invariant_init pipeline :
  invariant edges pipeline ([], annotate edges pipeline).
Proof.
  split; simpl.
  - apply degreesOK_annotate.
  - by rewrite annotate_fst.
  - by rewrite annotate_fst.
  - intros P C _ HC. by apply elem_of_nil in HC.
  - intros i j P C Hi. by rewrite lookup_nil in Hi.
Qed.

Lemma sortedBy_snoc emitted T :
  sortedBy edges emitted →
  (∀ C, C ∈ emitted → ¬ hasEdge edges T C) →
  ¬ hasEdge edges T T →
  sortedBy edges (emitted ++ [T]).
Proof.
  intros Hsorted Hclosed Hself i j P C Hi Hj HE.
  apply lookup_snoc_Some in Hi as [[Hi HP]|[-> ->]];
    apply lookup_snoc_Some in Hj as [[Hj HC]|[-> ->]].
  - by eapply Hsorted.
  - done.
  - destruct (Hclosed C); [by eapply list_elem_of_lookup_2|done].
  - done.
Qed.

Lemma step_invariant pipeline s s' :
  invariant edges pipeline s → step edges s s' → invariant edges pipeline s'.
Proof.
  intros [Hdeg Hperm Hord Hclosed Hsorted] Hstep.
  destruct Hstep as [emitted waiting T rest Hsel]. simpl in *.
  destruct (selectReady_Some _ _ _ Hsel) as (l1 & l2 & -> & -> & Hl1).
  assert (∀ P, P ∈ (l1 ++ (T, 0) :: l2).*1 → ¬ hasEdge edges P T) as Hready.
  { apply degreesOK_ready; [done|]. apply elem_of_app. right. by left. }
  rewrite fmap_app, fmap_cons in Hperm, Hord, Hclosed, Hready. simpl in *.
  split; simpl; rewrite ?release_fst, ?fmap_app.
  - by apply degreesOK_release.
  - rewrite <- Hperm, <- !(assoc_L (++)). simpl.
    by rewrite (Permutation_middle l1.*1).
  - etrans; [|exact Hord]. apply sublist_app; [done|]. by apply sublist_cons.
  - intros P C HP [HC| ->%list_elem_of_singleton]%elem_of_app.
    + apply Hclosed; [|done].
      apply elem_of_app in HP as [?|?]; apply elem_of_app; [by left|by right; right].
    + apply Hready.
      apply elem_of_app in HP as [?|?]; apply elem_of_app; [by left|by right; right].
  - apply sortedBy_snoc; [done| |].
    + intros C HC. apply Hclosed; [|done]. apply elem_of_app. right. by left.
    + apply Hready. apply elem_of_app. right. by left.
Qed.

Lemma steps_invariant pipeline s s' :
  invariant edges pipeline s → rtc (step edges) s s' → invariant edges pipeline s'.
Proof. intros Hinv Hsteps. induction Hsteps; eauto using step_invariant. Qed.

(** ** The loop terminates within its rounds *)

Lemma kahn_steps (rounds : nat) waiting emitted :
  (length waiting ≤ rounds)%nat →
  rtc (step edges) (emitted, waiting) (kahn edges rounds waiting emitted) ∧
  selectReady (kahn edges rounds waiting emitted).2 = None.
Proof.
  revert waiting emitted.
  induction rounds as [|rounds IH]; intros waiting emitted Hlen.
  - destruct waiting; [|simpl in Hlen; lia]. done.
  - simpl. destruct (selectReady waiting) as [[T rest]|] eqn:Hsel; [|done].
    destruct (selectReady_Some _ _ _ Hsel) as (l1 & l2 & -> & -> & _).
    destruct (IH (release edges T (l1 ++ l2)) (emitted ++ [T])) as [Hsteps Hstop].
    { rewrite release_length. rewrite !length_app in *. simpl in Hlen. lia. }
    split; [|done]. eapply rtc_l; [|exact Hsteps]. by constructor.
Qed.

(** Every emitted task was selected in some state of the run. *)
Lemma steps_trace s s' :
  rtc (step edges) s s' →
  ∀ (k : nat) T, s'.1 !! k = Some T → (length s.1 ≤ k)%nat →
  ∃ waiting rest,
    rtc (step edges) s (take k s'.1, waiting) ∧
    selectReady waiting = Some (T, rest).
Proof.
  revert s'. apply (rtc_ind_r (λ s', ∀ (k : nat) T, s'.1 !! k = Some T →
    (length s.1 ≤ k)%nat → ∃ waiting rest,
      rtc (step edges) s (take k s'.1, waiting) ∧
      selectReady waiting = Some (T, rest))); [|intros y z Hsy Hyz IH];
    intros k T Hk Hlen.
  - apply lookup_lt_Some in Hk. lia.
  - destruct Hyz as [emitted waiting T' rest Hsel]. simpl in *.
    apply lookup_snoc_Some in Hk as [[Hlt Hk]|[-> ->]].
    + destruct (IH k T Hk Hlen) as (wk & rk & Hrun & Hselk).
      exists wk, rk. by rewrite take_app_le by lia.
    + exists waiting, rest. by rewrite take_app_length.
Qed.

(** ** A stopped loop with tasks left *)

Lemma stuck_producers waiting :
  degreesOK edges waiting → selectReady waiting = None →
  ∀ U, U ∈ waiting.*1 → ∃ P, P ∈ waiting.*1 ∧ hasEdge edges P U.
Proof.
  intros Hok Hstuck%selectReady_None U ([U' d] & -> & Hw)%list_elem_of_fmap.
  rewrite Forall_forall in Hstuck. specialize (Hstuck _ Hw).
  unfold degreesOK in Hok. rewrite Forall_forall in Hok. specialize (Hok _ Hw).
  simpl in *. unfold inDegree in Hok.
  destruct (filter _ waiting.*1) as [|P l] eqn:E; [simpl in Hok; lia|].
  assert (P ∈ filter (λ P, hasEdge edges P U') waiting.*1) as [? ?]%list_elem_of_filter
    by (rewrite E; by left).
  by exists P.
Qed.

Lemma tc_flip {A} (R : relation A) x y : tc (flip R) x y → tc R y x.
Proof.
  induction 1 as [x y Hxy|x y z Hxy _ IH]; [by apply tc_once|].
  eapply tc_r; [exact IH|exact Hxy].
Qed.

(** In a finite set where every element has a predecessor in the set,
    some path of predecessors closes. *)
Lemma no_source_cycle {A} (R : relation A) (W : list A) :
  (∀ x, x ∈ W → ∃ y, y ∈ W ∧ R y x) →
  (∀ x, ¬ tc (λ a b, a ∈ W ∧ b ∈ W ∧ R a b) x x) →
  W = [].
Proof.
  intros Hpred Hacyc. destruct W as [|x0 W']; [done|]. exfalso.
  set (W := x0 :: W') in *.
  set (back := λ a b : A, a ∈ W ∧ b ∈ W ∧ R b a).
  assert (Irreflexive (tc back)) as Hirr.
  { intros x Hx. apply (Hacyc x). apply tc_flip.
    apply (tc_congruence (R := back) (λ a, a)
             (flip (λ a b, a ∈ W ∧ b ∈ W ∧ R a b)) x x); [|exact Hx].
    unfold back, flip. naive_solver. }
  assert (∀ x, pred_finite (tc back x)) as Hfin.
  { intros x. exists W. intros y Hxy.
    induction Hxy as [x y (_ & ? & _)|]; done. }
  assert (∀ x, sn back x → x ∈ W → False) as Hsn.
  { intros x Hx. induction Hx as [x _ IH]. intros HxW.
    destruct (Hpred x HxW) as (y & HyW & Hyx). by apply (IH y). }
  apply (Hsn x0); [by apply tc_finite_sn|by left].
Qed.

(** ** A pipeline that is already in order *)

Lemma sortedBy_cons T l :
  sortedBy edges (T :: l) →
  sortedBy edges l ∧ ∀ P, P ∈ T :: l → ¬ hasEdge edges P T.
Proof.
  intros Hsorted. split.
  - intros i j P C Hi Hj HE.
    specialize (Hsorted (S i) (S j) P C Hi Hj HE). lia.
  - intros P [j Hj]%list_elem_of_lookup_1 HE.
    specialize (Hsorted j 0 P T Hj eq_refl HE). lia.
Qed.

Lemma kahn_sorted l emitted :
  sortedBy edges l →
  kahn edges (length l) (annotate edges l) emitted = (emitted ++ l, []).
Proof.
  revert emitted. induction l as [|T l IH]; intros emitted Hsorted.
  { simpl. by rewrite app_nil_r. }
  apply sortedBy_cons in Hsorted as [Hl HT].
  assert (inDegree edges (T :: l) T = 0) as HT0 by by apply inDegree_zero.
  cbn [length kahn annotate fmap list_fmap selectReady]. rewrite HT0.
  rewrite decide_True by done.
  assert (release edges T ((λ U, (U, inDegree edges (T :: l) U)) <$> l)
          = annotate edges l) as ->.
  { unfold release, annotate. rewrite <- list_fmap_compose.
    apply list_fmap_ext. intros _ U _. simpl. rewrite inDegree_cons.
    by case_decide. }
  rewrite IH by done. by rewrite <- (assoc_L (++)).
Qed.

End LoopProofs.

Section GraphProofs.
Import PipeTools.
Context {DatasetType Config : Type}.
Context (name : DatasetType → string).

Abbreviation TaskDef' := (TaskDef DatasetType Config).
Abbreviation Factory := (option (TaskFactory (DatasetType := DatasetType) (Config := Config))).

Implicit Types (T U P C Q : TaskDef') (p pipeline tasks : list TaskDef').
Implicit Types (f : Factory) (producer m : gmap string string).
Implicit Types (edges : gset (string * string)) (N a b : string).

(** ** Class resolution *)

Lemma _loadTaskClass_label T f T' :
  _loadTaskClass T f = inr T' → label T' = label T.
Proof.
  unfold _loadTaskClass. destruct (taskClass T); [by intros [= <-]|].
  destruct f as [factory|]; [|done].
  destruct (factory (taskName T)) as [[tClass tName]|]; [|done].
  by intros [= <-].
Qed.

Lemma _loadTaskClass_error T f e :
  _loadTaskClass T f = inl e → e = MissingTaskFactoryError (label T).
Proof.
  unfold _loadTaskClass. destruct (taskClass T); [done|].
  destruct f as [factory|]; [|by intros [= <-]].
  destruct (factory (taskName T)) as [[tClass tName]|]; [done|].
  by intros [= <-].
Qed.

Lemma loadAll_inr p f tasks :
  loadAll p f = inr tasks →
  Forall2 (λ T T', _loadTaskClass T f = inr T') p tasks.
Proof.
  revert tasks. induction p as [|T p IH]; intros tasks; simpl.
  - intros [= <-]. constructor.
  - destruct (_loadTaskClass T f) as [e|T'] eqn:HT; [done|].
    destruct (loadAll p f) as [e|tasks'] eqn:Hp; [done|].
    intros [= <-]. constructor; [done|]. by apply IH.
Qed.

Lemma loadAll_inl p f e :
  loadAll p f = inl e → ∃ T, T ∈ p ∧ _loadTaskClass T f = inl e.
Proof.
  induction p as [|T p IH]; simpl; [done|].
  destruct (_loadTaskClass T f) as [e'|T'] eqn:HT.
  - intros [= <-]. exists T. split; [by left|done].
  - destruct (loadAll p f) as [e'|tasks'] eqn:Hp; [|done].
    intros [= <-]. destruct IH as (U & ? & ?); [done|].
    exists U. split; [by right|done].
Qed.

Lemma loadAll_resolvable p f :
  resolvable f p → ∃ tasks, loadAll p f = inr tasks.
Proof.
  intros Hres. destruct (loadAll p f) as [e|tasks] eqn:E; [|by eexists].
  apply loadAll_inl in E as (T & HT & He).
  destruct (Hres T HT) as [T' HT']. congruence.
Qed.

(** The loaded tasks, seen from the caller's pipeline. *)
Lemma loaded_task_l p f tasks P :
  Forall2 (λ T T', _loadTaskClass T f = inr T') p tasks → P ∈ p →
  ∃ P', P' ∈ tasks ∧ _loadTaskClass P f = inr P'.
Proof.
  intros Hload [i Hi]%list_elem_of_lookup_1.
  destruct (Forall2_lookup_l _ _ _ _ _ Hload Hi) as (P' & Hi' & HP).
  exists P'. split; [by eapply list_elem_of_lookup_2|done].
Qed.

Lemma loaded_task_r p f tasks P' :
  Forall2 (λ T T', _loadTaskClass T f = inr T') p tasks → P' ∈ tasks →
  ∃ P, P ∈ p ∧ _loadTaskClass P f = inr P'.
Proof.
  intros Hload [i Hi]%list_elem_of_lookup_1.
  destruct (Forall2_lookup_r _ _ _ _ _ Hload Hi) as (P & Hi' & HP).
  exists P. split; [by eapply list_elem_of_lookup_2|done].
Qed.

Lemma declaredOutputs_loaded T f T' :
  _loadTaskClass T f = inr T' → declaredOutputs name f T = outputDatasetTypes name T'.
Proof. intros HT. unfold declaredOutputs. by rewrite HT. Qed.

Lemma declaredInputs_loaded T f T' :
  _loadTaskClass T f = inr T' → declaredInputs name f T = inputDatasetTypes name T'.
Proof. intros HT. unfold declaredInputs. by rewrite HT. Qed.

(** ** The producer map *)

Lemma declareOutputs_inr lbl (names : list string) m m' :
  declareOutputs lbl names m = inr m' →
  (∀ N a, m !! N = Some a → m' !! N = Some a) ∧
  (∀ N, N ∈ names → m' !! N = Some lbl) ∧
  (∀ N a, m' !! N = Some a → m !! N = Some a ∨ (N ∈ names ∧ a = lbl)).
Proof.
  revert m. induction names as [|N0 names IH]; intros m; simpl.
  - intros [= <-]. split_and!; [done| |by left].
    intros N HN. by apply elem_of_nil in HN.
  - destruct (m !! N0) as [other|] eqn:HN0.
    + case_decide as Hother; [subst other|done].
      intros (Hmono & Hhit & Horigin)%IH. split_and!; [done| |].
      * intros N [->|?]%elem_of_cons; [by apply Hmono|by apply Hhit].
      * intros N a [?|[? ?]]%Horigin; [by left|right]. split; [by right|done].
    + intros (Hmono & Hhit & Horigin)%IH. split_and!.
      * intros N a HN. apply Hmono. rewrite lookup_insert_ne; [done|congruence].
      * intros N [->|?]%elem_of_cons; [|by apply Hhit].
        apply Hmono. by rewrite lookup_insert_eq.
      * intros N a [HN|[? ?]]%Horigin.
        -- rewrite lookup_insert in HN. case_decide; [|by left].
           simplify_eq. right. split; [by left|done].
        -- right. split; [by right|done].
Qed.

Lemma declareOutputs_inl lbl (names : list string) m e :
  declareOutputs lbl names m = inl e →
  ∃ N other, e = DuplicateOutputError N other lbl ∧ N ∈ names ∧
             other ≠ lbl ∧ m !! N = Some other.
Proof.
  revert m. induction names as [|N0 names IH]; intros m; simpl; [done|].
  destruct (m !! N0) as [other|] eqn:HN0.
  - case_decide as Hother.
    + intros (N & o & -> & ? & ? & ?)%IH. exists N, o. split_and!; [done|by right|done..].
    + intros [= <-]. exists N0, other. split_and!; [done|by left|done..].
  - intros (N & o & -> & ? & Hne & HN)%IH.
    rewrite lookup_insert in HN. case_decide; [by simplify_eq|].
    exists N, o. split_and!; [done|by right|done..].
Qed.

Lemma collectProducers_inr tasks m m' :
  collectProducers name tasks m = inr m' →
  (∀ N a, m !! N = Some a → m' !! N = Some a) ∧
  (∀ T N, T ∈ tasks → N ∈ outputDatasetTypes name T → m' !! N = Some (label T)) ∧
  (∀ N a, m' !! N = Some a →
     m !! N = Some a ∨ ∃ T, T ∈ tasks ∧ N ∈ outputDatasetTypes name T ∧ a = label T).
Proof.
  revert m. induction tasks as [|T0 tasks IH]; intros m; simpl.
  - intros [= <-]. split_and!; [done| |by left].
    intros T N HT. by apply elem_of_nil in HT.
  - destruct (declareOutputs _ _ m) as [e|m1] eqn:Hm1; [done|].
    apply declareOutputs_inr in Hm1 as (Hmono1 & Hhit1 & Horigin1).
    intros (Hmono & Hhit & Horigin)%IH. split_and!.
    + eauto.
    + intros T N [->|?]%elem_of_cons HN; [eauto|by eapply Hhit].
    + intros N a [[?|[? ->]]%Horigin1|(T & ? & ? & ->)]%Horigin.
      * by left.
      * right. exists T0. split; [by left|done].
      * right. exists T. split; [by right|done].
Qed.

Lemma collectProducers_inl tasks m e :
  collectProducers name tasks m = inl e →
  ∃ N a b, e = DuplicateOutputError N a b ∧ a ≠ b ∧
    (∃ Q, Q ∈ tasks ∧ label Q = b ∧ N ∈ outputDatasetTypes name Q) ∧
    (m !! N = Some a ∨
     ∃ P, P ∈ tasks ∧ label P = a ∧ N ∈ outputDatasetTypes name P).
Proof.
  revert m. induction tasks as [|T0 tasks IH]; intros m; simpl; [done|].
  destruct (declareOutputs _ _ m) as [e'|m1] eqn:Hm1.
  - intros [= <-]. apply declareOutputs_inl in Hm1 as (N & o & -> & ? & ? & ?).
    exists N, o, (label T0). split_and!; [done..| |by left].
    exists T0. split; [by left|done].
  - apply declareOutputs_inr in Hm1 as (_ & _ & Horigin1).
    intros (N & a & b & -> & ? & (Q & ? & ? & ?) & Ha)%IH.
    exists N, a, b. split_and!; [done..| |].
    + exists Q. split; [by right|done].
    + destruct Ha as [[?|[? ->]]%Horigin1|(P & ? & ? & ?)].
      * by left.
      * right. exists T0. split; [by left|done].
      * right. exists P. split; [by right|done].
Qed.

(** ** The edge set *)

Lemma elem_of_buildEdges producer tasks a b :
  (a, b) ∈ buildEdges name producer tasks ↔
  ∃ T N, T ∈ tasks ∧ N ∈ inputDatasetTypes name T ∧
         producer !! N = Some a ∧ a ≠ label T ∧ b = label T.
Proof.
  unfold buildEdges. rewrite elem_of_list_to_set, list_elem_of_bind.
  unfold incomingEdges. setoid_rewrite list_elem_of_bind. split.
  - intros (T & (N & Hab & HN) & HT). exists T, N.
    destruct (producer !! N) as [P|]; [|by apply elem_of_nil in Hab].
    case_decide; [by apply elem_of_nil in Hab|].
    apply list_elem_of_singleton in Hab as [= -> ->]. done.
  - intros (T & N & HT & HN & Ha & Hne & ->). exists T. split; [|done].
    exists N. split; [|done]. rewrite Ha, decide_False by done. by left.
Qed.

(** The edge set of a pipeline that passes validation is its dependency
    relation, on labels. *)
Lemma buildGraph_inr p f edges :
  buildGraph name p f = inr edges →
  ∀ a b, (a, b) ∈ edges ↔
    ∃ P C, P ∈ p ∧ C ∈ p ∧ label P = a ∧ label C = b ∧ dependencyEdge name f P C.
Proof.
  unfold buildGraph.
  destruct (loadAll p f) as [e|tasks] eqn:Hload; [done|].
  destruct (collectProducers name tasks ∅) as [e|producer] eqn:Hprod; [done|].
  intros [= <-] a b. apply loadAll_inr in Hload.
  apply collectProducers_inr in Hprod as (_ & Hhit & Horigin).
  rewrite elem_of_buildEdges. split.
  - intros (C' & N & HC' & HN & Ha & Hne & ->).
    destruct (Horigin _ _ Ha) as [?|(P' & HP' & HNP & ->)]; [done|].
    destruct (loaded_task_r _ _ _ _ Hload HP') as (P & HP & HPl).
    destruct (loaded_task_r _ _ _ _ Hload HC') as (C & HC & HCl).
    pose proof (_loadTaskClass_label _ _ _ HPl) as HlP.
    pose proof (_loadTaskClass_label _ _ _ HCl) as HlC.
    exists P, C. split_and!; [done..|]. split; [congruence|].
    exists N. by rewrite (declaredOutputs_loaded _ _ _ HPl),
      (declaredInputs_loaded _ _ _ HCl).
  - intros (P & C & HP & HC & <- & <- & Hne & N & HNP & HNC).
    destruct (loaded_task_l _ _ _ _ Hload HP) as (P' & HP' & HPl).
    destruct (loaded_task_l _ _ _ _ Hload HC) as (C' & HC' & HCl).
    pose proof (_loadTaskClass_label _ _ _ HPl) as HlP.
    pose proof (_loadTaskClass_label _ _ _ HCl) as HlC.
    rewrite (declaredOutputs_loaded _ _ _ HPl) in HNP.
    rewrite (declaredInputs_loaded _ _ _ HCl) in HNC.
    exists C', N. split_and!; [done..| |congruence|congruence].
    rewrite <- HlP. by apply Hhit.
Qed.

Lemma unique_label_eq p P Q :
  uniqueLabels p → P ∈ p → Q ∈ p → label P = label Q → P = Q.
Proof.
  intros Hnd [i Hi]%list_elem_of_lookup_1 [j Hj]%list_elem_of_lookup_1 Hl.
  assert (i = j) as ->; [|congruence].
  eapply (NoDup_lookup _ _ _ _ Hnd); rewrite list_lookup_fmap.
  - by rewrite Hi.
  - by rewrite Hj, Hl.
Qed.

Lemma unique_label_index p i j P Q :
  uniqueLabels p → p !! i = Some P → p !! j = Some Q → label P = label Q → i = j.
Proof.
  intros Hnd Hi Hj Hl.
  eapply (NoDup_lookup _ _ _ _ Hnd); rewrite list_lookup_fmap.
  - by rewrite Hi.
  - by rewrite Hj, Hl.
Qed.

Lemma dependency_hasEdge p f edges P C :
  buildGraph name p f = inr edges → P ∈ p → C ∈ p →
  dependencyEdge name f P C → hasEdge edges P C.
Proof.
  intros Hg HP HC Hdep. apply (buildGraph_inr _ _ _ Hg). by exists P, C.
Qed.

Lemma hasEdge_dependency p f edges P C :
  buildGraph name p f = inr edges → uniqueLabels p → P ∈ p → C ∈ p →
  hasEdge edges P C → dependencyEdge name f P C.
Proof.
  intros Hg Hnd HP HC (P0 & C0 & HP0 & HC0 & HlP & HlC & Hdep)%(buildGraph_inr _ _ _ Hg).
  by rewrite <- (unique_label_eq p P0 P), <- (unique_label_eq p C0 C).
Qed.

(** Validation passes on a resolvable pipeline without duplicate outputs. *)
Lemma buildGraph_ok p f :
  resolvable f p → duplicateFree name f p →
  ∃ edges, buildGraph name p f = inr edges.
Proof.
  intros Hres Hdup. unfold buildGraph.
  destruct (loadAll_resolvable _ _ Hres) as [tasks Hload]. rewrite Hload.
  apply loadAll_inr in Hload.
  destruct (collectProducers name tasks ∅) as [e|producer] eqn:Hprod; [|by eexists].
  exfalso. apply collectProducers_inl in Hprod
    as (N & a & b & _ & Hne & (Q' & HQ' & <- & HNQ) & [?|(P' & HP' & <- & HNP)]);
    [done|].
  destruct (loaded_task_r _ _ _ _ Hload HP') as (P & [i Hi]%list_elem_of_lookup_1 & HPl).
  destruct (loaded_task_r _ _ _ _ Hload HQ') as (Q & [j Hj]%list_elem_of_lookup_1 & HQl).
  rewrite <- (declaredOutputs_loaded _ _ _ HPl) in HNP.
  rewrite <- (declaredOutputs_loaded _ _ _ HQl) in HNQ.
  assert (i = j) as -> by by eapply Hdup.
  apply Hne. rewrite (_loadTaskClass_label _ _ _ HPl), (_loadTaskClass_label _ _ _ HQl).
  congruence.
Qed.

(** ** Runs of [orderPipeline] *)

Lemma orderPipeline_run p f edges :
  buildGraph name p f = inr edges →
  ∃ emitted waiting,
    orderPipeline name p f = finish (emitted, waiting) ∧
    rtc (step edges) ([], annotate edges p) (emitted, waiting) ∧
    invariant edges p (emitted, waiting) ∧
    selectReady waiting = None.
Proof.
  intros Hg. unfold orderPipeline. rewrite Hg.
  destruct (kahn_steps edges (length p) (annotate edges p) []) as [Hsteps Hstop].
  { unfold annotate. by rewrite length_fmap. }
  destruct (kahn edges (length p) (annotate edges p) []) as [emitted waiting].
  exists emitted, waiting. split_and!; [done..| |done].
  eapply steps_invariant; [apply invariant_init|done].
Qed.

(** Whatever [orderPipeline] returns is a permutation of the pipeline in
    which the producer of every edge precedes the consumer. *)
Lemma orderPipeline_sound p f r :
  orderPipeline name p f = inr r →
  r ≡ₚ p ∧ topologicallyOrdered name f r.
Proof.
  intros Hr. destruct (buildGraph name p f) as [e|edges] eqn:Hg.
  { unfold orderPipeline in Hr. by rewrite Hg in Hr. }
  destruct (orderPipeline_run _ _ _ Hg)
    as (emitted & waiting & Hfin & _ & [_ Hperm _ _ Hsorted] & _).
  rewrite Hr in Hfin. destruct waiting; [|done]. simpl in *. simplify_eq.
  rewrite app_nil_r in Hperm. split; [done|].
  intros i j P C Hi Hj Hdep. apply (Hsorted i j P C Hi Hj).
  eapply dependency_hasEdge; [done| | |done].
  - rewrite <- Hperm. by eapply list_elem_of_lookup_2.
  - rewrite <- Hperm. by eapply list_elem_of_lookup_2.
Qed.

Lemma topologicallyOrdered_path p f r P C :
  r ≡ₚ p → topologicallyOrdered name f r →
  tc (dependsIn name f p) P C →
  ∀ i j, r !! i = Some P → r !! j = Some C → i < j.
Proof.
  intros Hperm Hsorted Hpath.
  induction Hpath as [P C (_ & _ & Hdep)|P Q C (_ & HQ & Hdep) _ IH]; intros i j Hi Hj.
  - by eapply Hsorted.
  - rewrite <- Hperm in HQ. apply list_elem_of_lookup_1 in HQ as [k Hk].
    specialize (Hsorted i k P Q Hi Hk Hdep). specialize (IH k j Hk Hj). lia.
Qed.

(** ** Statements about [orderPipeline] and [isPipelineOrdered] *)

(** C1. On a pipeline with unique labels whose task classes resolve,
    without duplicate outputs and without a dependency cycle,
    [orderPipeline] returns a pipeline; the result is a permutation of the
    input, and for every dependency edge the producer's index in the
    result is strictly less than the consumer's. *)
Theorem orderPipeline_topological p f :
  uniqueLabels p → resolvable f p → duplicateFree name f p → acyclic name f p →
  ∃ r, orderPipeline name p f = inr r ∧ r ≡ₚ p ∧ topologicallyOrdered name f r.
Proof.
  intros Hnd Hres Hdup Hacyc.
  destruct (buildGraph_ok _ _ Hres Hdup) as [edges Hg].
  destruct (orderPipeline_run _ _ _ Hg)
    as (emitted & waiting & Hfin & _ & [Hdeg Hperm Hord _ _] & Hstop).
  simpl in *.
  assert (waiting.*1 = []) as Hnil.
  { apply (no_source_cycle (hasEdge edges)).
    - by apply stuck_producers.
    - intros T HT. apply (Hacyc T).
      apply (tc_congruence
               (R := λ x y : TaskDef', x ∈ waiting.*1 ∧ y ∈ waiting.*1 ∧ hasEdge edges x y)
               (λ x, x) (dependsIn name f p) T T); [|done].
      intros P C (HP%(sublist_subseteq _ _ Hord) & HC%(sublist_subseteq _ _ Hord) & HE).
      split_and!; [done..|]. by eapply hasEdge_dependency. }
  apply fmap_nil_inv in Hnil as ->. exists emitted. split; [done|].
  by apply orderPipeline_sound.
Qed.

(** C4. Two distinct tasks that declare the same output name make graph
    construction fail with a [DuplicateOutputError], whichever of the two
    comes first; both entry points return that error, [orderPipeline]
    without entering its loop.  The error names a dataset type and the
    labels of two tasks that both declare it. *)
Theorem duplicate_output_error p f i j P Q N :
  uniqueLabels p → resolvable f p →
  i ≠ j → p !! i = Some P → p !! j = Some Q →
  N ∈ declaredOutputs name f P → N ∈ declaredOutputs name f Q →
  ∃ N' a b,
    buildGraph name p f = inl (DuplicateOutputError N' a b) ∧
    isPipelineOrdered name p f = inl (DuplicateOutputError N' a b) ∧
    orderPipeline name p f = inl (DuplicateOutputError N' a b) ∧
    a ≠ b ∧
    ∃ P' Q', P' ∈ p ∧ Q' ∈ p ∧ label P' = a ∧ label Q' = b ∧
             N' ∈ declaredOutputs name f P' ∧ N' ∈ declaredOutputs name f Q'.
Proof.
  intros Hnd Hres Hij Hi Hj HNP HNQ.
  assert (∃ N' a b, buildGraph name p f = inl (DuplicateOutputError N' a b) ∧ a ≠ b ∧
            ∃ P' Q', P' ∈ p ∧ Q' ∈ p ∧ label P' = a ∧ label Q' = b ∧
              N' ∈ declaredOutputs name f P' ∧ N' ∈ declaredOutputs name f Q')
    as (N' & a & b & Hg & Hne & Hnames).
  { unfold buildGraph.
    destruct (loadAll_resolvable _ _ Hres) as [tasks Hload]. rewrite Hload.
    apply loadAll_inr in Hload.
    destruct (collectProducers name tasks ∅) as [e|producer] eqn:Hprod.
    - apply collectProducers_inl in Hprod
        as (N' & a & b & -> & Hne & (Q' & HQ' & <- & HNQ') & [?|(P' & HP' & <- & HNP')]);
        [done|].
      destruct (loaded_task_r _ _ _ _ Hload HP') as (P0 & HP0 & HPl).
      destruct (loaded_task_r _ _ _ _ Hload HQ') as (Q0 & HQ0 & HQl).
      exists N', (label P'), (label Q'). split_and!; [done..|].
      exists P0, Q0. rewrite (declaredOutputs_loaded _ _ _ HPl),
        (declaredOutputs_loaded _ _ _ HQl).
      rewrite (_loadTaskClass_label _ _ _ HPl), (_loadTaskClass_label _ _ _ HQl).
      done.
    - exfalso. apply collectProducers_inr in Hprod as (_ & Hhit & _).
      destruct (Forall2_lookup_l _ _ _ _ _ Hload Hi) as (P' & Hi' & HPl).
      destruct (Forall2_lookup_l _ _ _ _ _ Hload Hj) as (Q' & Hj' & HQl).
      rewrite (declaredOutputs_loaded _ _ _ HPl) in HNP.
      rewrite (declaredOutputs_loaded _ _ _ HQl) in HNQ.
      apply list_elem_of_lookup_2 in Hi', Hj'.
      pose proof (Hhit _ _ Hi' HNP) as HP. pose proof (Hhit _ _ Hj' HNQ) as HQ.
      rewrite (_loadTaskClass_label _ _ _ HPl) in HP.
      rewrite (_loadTaskClass_label _ _ _ HQl) in HQ.
      apply Hij. eapply unique_label_index; [done..|congruence]. }
  exists N', a, b. unfold isPipelineOrdered, orderPipeline. rewrite Hg. done.
Qed.

(** C5. On a resolvable pipeline without duplicate outputs whose
    dependency graph has a cycle, [orderPipeline] returns a
    [PipelineDataCycleError]: it names the labels of the tasks left
    unemitted, of which there is at least one, and each of them depends
    on a task that is unemitted as well.  More generally, from any state
    of the loop in which tasks wait and none has in-degree zero, the
    outcome is this error, whatever the number of rounds left. *)
Theorem orderPipeline_cycle p f :
  resolvable f p → duplicateFree name f p → hasCycle name f p →
  (∃ unordered,
     orderPipeline name p f = inl (PipelineDataCycleError unordered) ∧
     unordered ≠ [] ∧
     ∀ l, l ∈ unordered →
       ∃ P U, P ∈ p ∧ U ∈ p ∧ label U = l ∧ label P ∈ unordered ∧
              dependencyEdge name f P U) ∧
  (∀ edges (rounds : nat) (waiting : list (TaskDef' * nat)) emitted,
     waiting ≠ [] → Forall (λ w, w.2 ≠ 0) waiting →
     finish (kahn edges rounds waiting emitted)
       = inl (PipelineDataCycleError ((label ∘ fst) <$> waiting))).
Proof.
  intros Hres Hdup [T HT]. split.
  - destruct (buildGraph_ok _ _ Hres Hdup) as [edges Hg].
    destruct (orderPipeline_run _ _ _ Hg)
      as (emitted & waiting & Hfin & _ & [Hdeg _ _ _ _] & Hstop).
    simpl in *. destruct waiting as [|w waiting].
    + exfalso. destruct (orderPipeline_sound _ _ _ Hfin) as [Hperm Hsorted].
      assert (T ∈ p) as HTp by (by inversion HT as [?? (?&?&?)|??? (?&?&?)]).
      rewrite <- Hperm in HTp. apply list_elem_of_lookup_1 in HTp as [i Hi].
      pose proof (topologicallyOrdered_path _ _ _ _ _ Hperm Hsorted HT i i Hi Hi). lia.
    + exists ((label ∘ fst) <$> (w :: waiting)). split_and!; [done..|].
      intros l (w' & -> & Hw')%list_elem_of_fmap.
      destruct (stuck_producers edges _ Hdeg Hstop w'.1) as (P' & HP' & HE).
      { apply list_elem_of_fmap. by exists w'. }
      apply (buildGraph_inr _ _ _ Hg) in HE as (P & U & HP & HU & HlP & HlU & Hdep).
      exists P, U. split_and!; [done..| |done]. rewrite HlP.
      rewrite (list_fmap_compose fst label). apply list_elem_of_fmap. by exists P'.
  - intros edges rounds waiting emitted Hne Hall%selectReady_None.
    assert (kahn edges rounds waiting emitted = (emitted, waiting)) as ->.
    { destruct rounds; [done|]. simpl. by rewrite Hall. }
    by destruct waiting.
Qed.

(** ** The read-only check *)

Lemma indexOf_Some l p (i : nat) :
  indexOf l p = Some i → ∃ T, p !! i = Some T ∧ label T = l.
Proof.
  unfold indexOf. destruct (list_find _ p) as [[i' T]|] eqn:E; [|done].
  intros [= <-]. apply list_find_Some in E as (? & ? & _). by exists T.
Qed.

Lemma indexOf_elem p T :
  T ∈ p → ∃ (i : nat) U, indexOf (label T) p = Some i ∧ p !! i = Some U ∧
                         label U = label T.
Proof.
  intros HT. unfold indexOf.
  destruct (list_find_elem_of (λ U, label U = label T) p T HT eq_refl) as [[i U] E].
  rewrite E. apply list_find_Some in E as (? & ? & _). by exists i, U.
Qed.

Lemma precedes_sortedBy p f edges :
  buildGraph name p f = inr edges → uniqueLabels p →
  set_Forall (precedes p) edges ↔ sortedBy edges p.
Proof.
  intros Hg Hnd. split.
  - intros Hall i j P C Hi Hj HE. specialize (Hall _ HE).
    unfold precedes in Hall. simpl in Hall.
    destruct (indexOf (label P) p) as [i'|] eqn:Ei; [|done].
    destruct (indexOf (label C) p) as [j'|] eqn:Ej; [|done].
    apply indexOf_Some in Ei as (P' & Hi' & HlP), Ej as (C' & Hj' & HlC).
    by rewrite <- (unique_label_index p i' i P' P), <- (unique_label_index p j' j C' C).
  - intros Hsorted [a b] (P & C & HP & HC & <- & <- & Hdep)%(buildGraph_inr _ _ _ Hg).
    destruct (indexOf_elem _ _ HP) as (i & P' & Ei & Hi & HlP).
    destruct (indexOf_elem _ _ HC) as (j & C' & Ej & Hj & HlC).
    unfold precedes. simpl. rewrite Ei, Ej.
    apply (Hsorted i j P' C' Hi Hj). unfold hasEdge. rewrite HlP, HlC.
    by eapply dependency_hasEdge.
Qed.

Lemma sortedBy_topologicallyOrdered p f edges :
  buildGraph name p f = inr edges → uniqueLabels p →
  sortedBy edges p ↔ topologicallyOrdered name f p.
Proof.
  intros Hg Hnd. split; intros Hsorted i j P C Hi Hj HE;
    apply (Hsorted i j P C Hi Hj).
  - eapply dependency_hasEdge; [done| | |done]; by eapply list_elem_of_lookup_2.
  - eapply hasEdge_dependency; [done..| | |done]; by eapply list_elem_of_lookup_2.
Qed.

Lemma orderPipeline_sorted p f edges r :
  buildGraph name p f = inr edges → orderPipeline name p f = inr r →
  sortedBy edges r.
Proof.
  intros Hg Hr.
  destruct (orderPipeline_run _ _ _ Hg)
    as (emitted & waiting & Hfin & _ & [_ _ _ _ Hsorted] & _).
  rewrite Hr in Hfin. destruct waiting; [|done]. simpl in *. by simplify_eq.
Qed.

(** C3. With unique labels: whenever both operations return,
    [isPipelineOrdered] answers [true] exactly if [orderPipeline] returns
    the pipeline in the order it was given; and on a resolvable pipeline
    without duplicate outputs and without a cycle whose order leaves
    some producer behind its consumer, [isPipelineOrdered] returns
    [false]. *)
Theorem isPipelineOrdered_iff_unchanged p f :
  uniqueLabels p →
  (∀ (ordered : bool) r,
     isPipelineOrdered name p f = inr ordered → orderPipeline name p f = inr r →
     (ordered = true ↔ r = p)) ∧
  (resolvable f p → duplicateFree name f p → acyclic name f p →
   ¬ topologicallyOrdered name f p →
   isPipelineOrdered name p f = inr false).
Proof.
  intros Hnd. split.
  - intros ordered r Hb Hr. destruct (buildGraph name p f) as [e|edges] eqn:Hg.
    { unfold isPipelineOrdered in Hb. by rewrite Hg in Hb. }
    unfold isPipelineOrdered in Hb. rewrite Hg in Hb. injection Hb as <-.
    rewrite bool_decide_eq_true, (precedes_sortedBy _ _ _ Hg Hnd). split.
    + intros Hsorted. unfold orderPipeline in Hr.
      rewrite Hg, (kahn_sorted edges p [] Hsorted) in Hr. simpl in Hr. congruence.
    + intros <-. by eapply orderPipeline_sorted.
  - intros Hres Hdup _ Hwrong.
    destruct (buildGraph_ok _ _ Hres Hdup) as [edges Hg].
    unfold isPipelineOrdered. rewrite Hg. f_equal. apply bool_decide_eq_false.
    rewrite (precedes_sortedBy _ _ _ Hg Hnd), (sortedBy_topologicallyOrdered _ _ _ Hg Hnd).
    done.
Qed.

(** ** Sufficient conditions that can be computed *)

Lemma resolvable_loaded p f :
  Forall (λ T, is_Some (taskClass T)) p → resolvable f p.
Proof.
  rewrite Forall_forall. intros Hall T [tClass HT]%Hall.
  exists T. unfold _loadTaskClass. by rewrite HT.
Qed.

Lemma duplicateFree_NoDup p f :
  NoDup (p ≫= declaredOutputs name f) → duplicateFree name f p.
Proof.
  induction p as [|T p IH]; intros Hnd i j P Q N Hi Hj HP HQ.
  { by rewrite lookup_nil in Hi. }
  rewrite bind_cons in Hnd. apply NoDup_app in Hnd as (_ & Hdisj & Hnd).
  destruct i as [|i], j as [|j]; simpl in *; simplify_eq.
  - done.
  - destruct (Hdisj N HP). apply list_elem_of_bind. exists Q.
    split; [done|]. by eapply list_elem_of_lookup_2.
  - destruct (Hdisj N HQ). apply list_elem_of_bind. exists P.
    split; [done|]. by eapply list_elem_of_lookup_2.
  - f_equal. by eapply IH.
Qed.

Lemma acyclic_rank p f (rank : string → nat) :
  Forall (λ P, Forall (λ C, dependencyEdge name f P C →
                            rank (label P) < rank (label C)) p) p →
  acyclic name f p.
Proof.
  intros Hrank.
  assert (∀ P C, tc (dependsIn name f p) P C → rank (label P) < rank (label C)) as Hpath.
  { intros P C Hpath.
    induction Hpath as [P C (HP & HC & Hdep)|P Q C (HP & HQ & Hdep) _ IH].
    - rewrite Forall_forall in Hrank. specialize (Hrank P HP).
      rewrite Forall_forall in Hrank. by apply Hrank.
    - rewrite Forall_forall in Hrank. specialize (Hrank P HP).
      rewrite Forall_forall in Hrank. specialize (Hrank Q HQ Hdep). lia. }
  intros T HT%Hpath. lia.
Qed.

(** ** Ties *)

Lemma sublist_order {A} (x1 x2 l : list A) (x y : A) :
  (x1 ++ x :: x2) `sublist_of` l → y ∈ x2 →
  ∃ i j : nat, i < j ∧ l !! i = Some x ∧ l !! j = Some y.
Proof.
  intros (k1 & k2 & -> & _ & Hk2)%sublist_app_l Hy.
  apply sublist_cons_l in Hk2 as (k21 & k22 & -> & Hx2).
  apply (sublist_subseteq _ _ Hx2), list_elem_of_lookup_1 in Hy as [n Hn].
  exists (length (k1 ++ k21)), (length (k1 ++ k21) + S n). split_and!; [lia| |].
  - rewrite (assoc_L (++)). apply list_lookup_middle. done.
  - rewrite (assoc_L (++)), lookup_app_r by lia.
    replace (length (k1 ++ k21) + S n - length (k1 ++ k21)) with (S n) by lia.
    done.
Qed.

Lemma invariant_labels edges p (s : list TaskDef' * list (TaskDef' * nat)) T :
  uniqueLabels p → invariant edges p s → T ∈ s.2.*1 → unemitted s.1 T.
Proof.
  intros Hnd [_ Hperm _ _ _] HT Hin.
  unfold uniqueLabels in Hnd. rewrite <- Hperm, fmap_app in Hnd.
  apply NoDup_app in Hnd as (_ & Hdisj & _).
  apply (Hdisj _ Hin). apply list_elem_of_fmap. by exists T.
Qed.

(** C2. With unique labels, every position [k] of the result holds the
    task that the tie-break prescribes: with the tasks before position
    [k] emitted, the task [T] at position [k] is itself unemitted and
    ready, and every unemitted, ready task of the pipeline has an
    original index that is at least the original index of [T]. *)
Theorem orderPipeline_stable_ties p f r (k : nat) T :
  uniqueLabels p → orderPipeline name p f = inr r → r !! k = Some T →
  unemitted (take k r) T ∧ ready name f p (take k r) T ∧
  ∀ U (i j : nat),
    p !! i = Some T → p !! j = Some U →
    unemitted (take k r) U → ready name f p (take k r) U → (i ≤ j)%nat.
Proof.
  intros Hnd Hr Hk. destruct (buildGraph name p f) as [e|edges] eqn:Hg.
  { unfold orderPipeline in Hr. by rewrite Hg in Hr. }
  destruct (orderPipeline_run _ _ _ Hg)
    as (emitted & waiting & Hfin & Hsteps & _ & _).
  rewrite Hr in Hfin. destruct waiting; [|done]. simpl in Hfin. simplify_eq.
  destruct (steps_trace edges _ _ Hsteps k T Hk) as (wk & rest & Hrun & Hsel);
    [simpl; lia|]. simpl in Hrun.
  pose proof (steps_invariant edges p _ _ (invariant_init edges p) Hrun) as Hinv.
  pose proof Hinv as [Hdeg Hperm Hord _ _]. simpl in *.
  destruct (selectReady_Some _ _ _ Hsel) as (l1 & l2 & -> & _ & Hl1).
  assert ((T, 0) ∈ l1 ++ (T, 0) :: l2) as HTw by (apply elem_of_app; right; by left).
  assert (T ∈ (l1 ++ (T, 0) :: l2).*1) as HTw1.
  { apply list_elem_of_fmap. by exists (T, 0). }
  assert (T ∈ p) as HTp by by apply (sublist_subseteq _ _ Hord).
  assert (∀ P, P ∈ p → P ∈ (l1 ++ (T, 0) :: l2).*1 ∨ label P ∈ label <$> take k emitted)
    as Hwhere.
  { intros P HP. rewrite <- Hperm in HP. apply elem_of_app in HP as [?|?]; [|by left].
    right. apply list_elem_of_fmap. by exists P. }
  split_and!.
  - by apply (invariant_labels edges p _ T Hnd Hinv).
  - intros P HP Hdep. destruct (Hwhere P HP) as [HPw|?]; [|done].
    destruct (degreesOK_ready edges _ T Hdeg HTw P HPw).
    by eapply dependency_hasEdge.
  - intros U i j Hi Hj HU Hready.
    assert (U ∈ p) as HUp by by eapply list_elem_of_lookup_2.
    destruct (Hwhere U HUp) as [HUw|?]; [|done].
    apply list_elem_of_fmap in HUw as ([U' d] & -> & HUd). simpl in *.
    assert (d = 0) as ->.
    { unfold degreesOK in Hdeg. rewrite Forall_forall in Hdeg.
      pose proof (Hdeg _ HUd) as Hd. simpl in Hd. rewrite Hd.
      apply inDegree_zero. intros P HPw HE.
      assert (P ∈ p) as HPp by by apply (sublist_subseteq _ _ Hord).
      apply (invariant_labels edges p _ P Hnd Hinv HPw). simpl.
      apply Hready; [done|]. by eapply hasEdge_dependency. }
    apply elem_of_app in HUd as [HUd|HUd].
    { rewrite Forall_forall in Hl1. by destruct (Hl1 _ HUd). }
    apply elem_of_cons in HUd as [[= ->]|HUd].
    { assert (i = j) as ->; [|done]. by eapply unique_label_index. }
    rewrite fmap_app, fmap_cons in Hord. simpl in Hord.
    destruct (sublist_order l1.*1 l2.*1 p T U' Hord) as (i' & j' & Hlt & Hi' & Hj').
    { apply list_elem_of_fmap. by exists (U', 0). }
    rewrite (unique_label_index p i i' T T Hnd Hi Hi' eq_refl).
    rewrite (unique_label_index p j j' U' U' Hnd Hj Hj' eq_refl). lia.
Qed.

End GraphProofs.

(** ** The ordering statements at the pipelines of the tests *)

Section OrderingExamples.
Import Tests Examples PipeTools.

Local Ltac by_computation := apply (bool_decide_unpack _); vm_compute; exact I.

Local Ltac unique := unfold uniqueLabels; by_computation.
Local Ltac loaded := apply resolvable_loaded; by_computation.
Local Ltac no_duplicates := apply duplicateFree_NoDup; by_computation.

(** [testOrderPipeline] *)
Example orderPipeline_tests :
  labelsOf (orderPipeline name chain noFactory) = inr ["task1"; "task2"] ∧
  labelsOf (orderPipeline name reversedChain noFactory) = inr ["task1"; "task2"] ∧
  labelsOf (orderPipeline name diamond noFactory)
    = inr ["task1"; "task2"; "task3"; "task4"] ∧
  labelsOf (orderPipeline name swappedDiamond noFactory)
    = inr ["task1"; "task3"; "task2"; "task4"] ∧
  labelsOf (orderPipeline name reversedDiamond noFactory)
    = inr ["task1"; "task2"; "task3"; "task4"] ∧
  labelsOf (orderPipeline name reversedSwappedDiamond noFactory)
    = inr ["task1"; "task3"; "task2"; "task4"].
Proof. split_and!; vm_compute; reflexivity. Qed.

(** [testIsOrdered] *)
Example isPipelineOrdered_tests :
  isPipelineOrdered name chain noFactory = inr true ∧
  isPipelineOrdered name reversedChain noFactory = inr false ∧
  isPipelineOrdered name diamond noFactory = inr true ∧
  isPipelineOrdered name swappedDiamond noFactory = inr true ∧
  isPipelineOrdered name reversedDiamond noFactory = inr false.
Proof. split_and!; vm_compute; reflexivity. Qed.

(** [testIsOrderedExceptions] and [testOrderPipelineExceptions] *)
Example exception_tests :
  isPipelineOrdered name duplicated noFactory
    = inl (DuplicateOutputError "C" "task2" "task3") ∧
  labelsOf (orderPipeline name duplicated noFactory)
    = inl (DuplicateOutputError "C" "task2" "task3") ∧
  isPipelineOrdered name unloaded noFactory = inl (MissingTaskFactoryError "task1") ∧
  labelsOf (orderPipeline name unloaded noFactory)
    = inl (MissingTaskFactoryError "task1") ∧
  labelsOf (orderPipeline name cyclic noFactory)
    = inl (PipelineDataCycleError ["task1"; "task2"; "task3"; "task4"]).
Proof. split_and!; vm_compute; reflexivity. Qed.

Lemma orderPipeline_topological_witness :
  ∃ r, orderPipeline name reversedDiamond noFactory = inr r ∧
       r ≡ₚ reversedDiamond ∧ topologicallyOrdered name noFactory r.
Proof.
  apply orderPipeline_topological.
  - unique.
  - loaded.
  - no_duplicates.
  - apply (acyclic_rank name _ _ diamondRank). by_computation.
Defined.

Lemma orderPipeline_stable_ties_witness :
  let T := mkTaskDef "ExampleSuperTask" (_makeConfig ["C"] ["E"])
             (Some ExampleSuperTask) "task3" in
  let emitted := take 1 swappedDiamond in
  unemitted emitted T ∧ ready name noFactory swappedDiamond emitted T ∧
  ∀ U (i j : nat),
    swappedDiamond !! i = Some T → swappedDiamond !! j = Some U →
    unemitted emitted U → ready name noFactory swappedDiamond emitted U →
    (i ≤ j)%nat.
Proof.
  apply (orderPipeline_stable_ties name swappedDiamond noFactory swappedDiamond 1).
  - unique.
  - vm_compute. reflexivity.
  - reflexivity.
Defined.

Lemma isPipelineOrdered_iff_unchanged_witness :
  (∀ (ordered : bool) r,
     isPipelineOrdered name reversedChain noFactory = inr ordered →
     orderPipeline name reversedChain noFactory = inr r →
     (ordered = true ↔ r = reversedChain)) ∧
  isPipelineOrdered name reversedChain noFactory = inr false.
Proof.
  destruct (isPipelineOrdered_iff_unchanged name reversedChain noFactory)
    as [Hiff Hfalse]; [unique|].
  split; [exact Hiff|]. apply Hfalse.
  - loaded.
  - no_duplicates.
  - apply (acyclic_rank name _ _ diamondRank). by_computation.
  - intros Hsorted.
    assert (1 < 0) as Hlt; [|lia].
    eapply (Hsorted 1 0); [reflexivity|reflexivity|]. by_computation.
Defined.

Lemma duplicate_output_error_witness :
  ∃ N' a b,
    buildGraph name duplicated noFactory = inl (DuplicateOutputError N' a b) ∧
    isPipelineOrdered name duplicated noFactory = inl (DuplicateOutputError N' a b) ∧
    orderPipeline name duplicated noFactory = inl (DuplicateOutputError N' a b) ∧
    a ≠ b ∧
    ∃ P' Q', P' ∈ duplicated ∧ Q' ∈ duplicated ∧ label P' = a ∧ label Q' = b ∧
             N' ∈ declaredOutputs name noFactory P' ∧
             N' ∈ declaredOutputs name noFactory Q'.
Proof.
  eapply (duplicate_output_error name duplicated noFactory 2 1 _ _ "C").
  - unique.
  - loaded.
  - lia.
  - reflexivity.
  - reflexivity.
  - vm_compute. left.
  - vm_compute. left.
Defined.

Lemma cyclic_hasCycle : hasCycle name noFactory cyclic.
Proof.
  assert (∀ i j P C, cyclic !! i = Some P → cyclic !! j = Some C →
            bool_decide (dependencyEdge name noFactory P C) = true →
            dependsIn name noFactory cyclic P C) as Hedge.
  { intros i j P C Hi Hj Hdep. split_and!.
    - by eapply list_elem_of_lookup_2.
    - by eapply list_elem_of_lookup_2.
    - by apply bool_decide_eq_true in Hdep. }
  eexists.
  eapply tc_l; [by apply (Hedge 0 1)|].
  eapply tc_l; [by apply (Hedge 1 2)|].
  eapply tc_l; [by apply (Hedge 2 3)|].
  apply tc_once. by apply (Hedge 3 0).
Defined.

Lemma orderPipeline_cycle_witness :
  ∃ unordered,
    orderPipeline name cyclic noFactory = inl (PipelineDataCycleError unordered) ∧
    unordered ≠ [].
Proof.
  destruct (orderPipeline_cycle name cyclic noFactory) as [(u & Hu & Hne & _) _].
  - loaded.
  - no_duplicates.
  - exact cyclic_hasCycle.
  - by exists u.
Defined.

End OrderingExamples.

(** * Further properties of graphBuilder.py *)

Section GraphBuilderStore.
Import GraphBuilder.
Context {DatasetType Config Registry QuantumGraph : Type}.
Context `{Countable DatasetType}.
Context (name : DatasetType → string).

Abbreviation TaskDef' := (TaskDef DatasetType Config).
Abbreviation Heap := (gmap nat TaskDef').
Abbreviation GraphBuilder' := (GraphBuilder DatasetType Config Registry).

Implicit Types (h : Heap) (td : TaskDef') (self : GraphBuilder') (l : nat).

(** ** Stores only grow *)

Lemma getattr_None {A} (field : TaskDef' → A) l h :
  h !! l = None → getattr l field h = (inl InvalidReference, h).
Proof. intros Hl. unfold getattr. by rewrite Hl. Qed.

Lemma _loadTaskClass_invalid self l h :
  h !! l = None → _loadTaskClass self l h = (inl InvalidReference, h).
Proof.
  intros Hl. unfold _loadTaskClass.
  by rewrite bind_unfold, (getattr_None _ _ _ Hl).
Qed.

Lemma _loadTaskClass_extends self l h : h ⊆ (_loadTaskClass self l h).2.
Proof.
  destruct (h !! l) as [td|] eqn:Hl.
  - destruct (taskClass td) as [tClass|] eqn:Hc.
    + by rewrite (_loadTaskClass_loaded _ _ _ _ _ Hl Hc).
    + destruct (loadTaskClass (taskFactory self) (taskName td))
        as [e|[tClass tName]] eqn:Hf.
      * by rewrite (_loadTaskClass_failed _ _ _ _ _ Hl Hc Hf).
      * rewrite (_loadTaskClass_resolved _ _ _ _ _ _ Hl Hc Hf). simpl.
        apply insert_subseteq, fresh_loc_unused.
  - by rewrite (_loadTaskClass_invalid _ _ _ Hl).
Qed.

Lemma mapM_extends {A B} (f : A → M DatasetType Config B) (xs : list A) h :
  (∀ x h, h ⊆ (f x h).2) → h ⊆ (mapM f xs h).2.
Proof.
  intros Hf. revert h. induction xs as [|x xs IH]; intros h; [done|].
  cbn [mapM]. rewrite bind_unfold. pose proof (Hf x h) as Hx.
  destruct (f x h) as [[e|y] h1]; [done|]. simpl in Hx.
  rewrite bind_unfold. pose proof (IH h1) as Hxs.
  destruct (mapM f xs h1) as [[e|ys] h2]; simpl in *; by etrans.
Qed.

Lemma visit_store vars l h : (visit name vars l h).2 = h.
Proof.
  destruct (h !! l) as [td|] eqn:Hl.
  - destruct (taskClass td) as [tClass|] eqn:Hc.
    + by rewrite (visit_resolved name _ _ _ _ Hl (mk_is_Some _ _ Hc)).
    + by rewrite (visit_unresolved name _ _ _ _ Hl Hc).
  - unfold visit. by rewrite bind_unfold, (getattr_None _ _ _ Hl).
Qed.

Lemma foldM_visit_store vars (tasks : list nat) h :
  (foldM (visit name) vars tasks h).2 = h.
Proof.
  revert vars. induction tasks as [|l tasks IH]; intros vars; [done|].
  cbn [foldM]. rewrite bind_unfold. pose proof (visit_store vars l h) as Hl.
  destruct (visit name vars l h) as [[e|vars'] h1]; simpl in Hl; subst h1; [done|].
  apply IH.
Qed.

Lemma buildIODatasets_store self (tasks : list nat) h :
  (buildIODatasets name self tasks h).2 = h.
Proof.
  unfold buildIODatasets. rewrite bind_unfold.
  pose proof (foldM_visit_store (mkLocals ∅ ∅ ∅) tasks h) as Hloop.
  destruct (foldM _ _ _ _) as [[e|vars] h1]; simpl in Hloop; subst h1; [done|].
  rewrite bind_unfold. unfold lift at 1.
  destruct (lookupAll _ _) as [e|ins]; [done|].
  rewrite bind_unfold. unfold lift at 1.
  by destruct (lookupAll _ _) as [e|outs].
Qed.

(** X5. [buildIODatasets] only reads: whatever the task list and whether
    it returns or raises, the store after the call is the store before. *)
Theorem buildIODatasets_read_only self (tasks : list nat) h :
  (buildIODatasets name self tasks h).2 = h.
Proof. apply buildIODatasets_store. Qed.

(** X2. [makeGraph] never changes or removes an object that was in the
    store before the call, whether it returns or raises: all it adds are
    new objects. *)
Theorem makeGraph_keeps_objects self (pipeline : list nat) h l td :
  h !! l = Some td →
  (makeGraph (QuantumGraph := QuantumGraph) name self pipeline h).2 !! l = Some td.
Proof.
  intros Hl. eapply lookup_weaken; [exact Hl|].
  unfold makeGraph. rewrite bind_unfold.
  pose proof (mapM_extends (_loadTaskClass self) pipeline h
                (_loadTaskClass_extends self)) as Hload.
  destruct (mapM _ _ _) as [[e|taskList] h1]; [done|]. simpl in Hload.
  rewrite bind_unfold.
  pose proof (buildIODatasets_store self taskList h1) as Hio.
  destruct (buildIODatasets _ _ _ _) as [[e|[ins outs]] h2];
    simpl in Hio; subst h2; done.
Qed.

(** X4. [_loadTaskClass] is idempotent: called on the reference it has
    returned, it returns that reference again and leaves the store as it
    is. *)
Theorem _loadTaskClass_idempotent self l h l' h' :
  _loadTaskClass self l h = (inr l', h') →
  _loadTaskClass self l' h' = (inr l', h').
Proof.
  intros Hrun. destruct (h !! l) as [td|] eqn:Hl.
  - destruct (taskClass td) as [tClass|] eqn:Hc.
    + rewrite (_loadTaskClass_loaded _ _ _ _ _ Hl Hc) in Hrun. simplify_eq.
      by eapply _loadTaskClass_loaded.
    + destruct (loadTaskClass (taskFactory self) (taskName td))
        as [e|[tClass tName]] eqn:Hf.
      * by rewrite (_loadTaskClass_failed _ _ _ _ _ Hl Hc Hf) in Hrun.
      * rewrite (_loadTaskClass_resolved _ _ _ _ _ _ Hl Hc Hf) in Hrun.
        simplify_eq. eapply _loadTaskClass_loaded; [apply lookup_insert_eq|done].
  - by rewrite (_loadTaskClass_invalid _ _ _ Hl) in Hrun.
Qed.

(** ** Loading all classes *)

Lemma loadable_inv self h l :
  loadable self h l →
  ∃ td, h !! l = Some td ∧
    (is_Some (taskClass td) ∨
     taskClass td = None ∧
     ∃ tClass tName,
       loadTaskClass (taskFactory self) (taskName td) = inr (tClass, tName)).
Proof.
  unfold loadable. destruct (h !! l) as [td|]; [|done]. intros Hl.
  exists td. split; [done|]. destruct (taskClass td) as [tClass|]; [left; by eexists|].
  right. split; [done|].
  destruct (loadTaskClass _ _) as [e|[tClass tName]]; [done|by eexists _, _].
Qed.

Lemma loadable_weaken self h h1 l :
  h ⊆ h1 → loadable self h l → loadable self h1 l.
Proof.
  intros Hsub Hl. destruct (loadable_inv _ _ _ Hl) as (td & Htd & _).
  unfold loadable in *. by rewrite Htd in Hl; rewrite (lookup_weaken _ _ _ _ Htd Hsub).
Qed.

Lemma _loadTaskClass_loadable self h l :
  loadable self h l →
  ∃ l1 h1, _loadTaskClass self l h = (inr l1, h1) ∧ h ⊆ h1 ∧ loadedFrom h h1 l l1.
Proof.
  intros (td & Hl & [[tClass Hc]|(Hc & tClass & tName & Hf)])%loadable_inv.
  - exists l, h. rewrite (_loadTaskClass_loaded _ _ _ _ _ Hl Hc).
    split_and!; [done..|]. exists td, td. rewrite Hc. split_and!; by eauto.
  - eexists _, _. rewrite (_loadTaskClass_resolved _ _ _ _ _ _ Hl Hc Hf).
    pose proof (fresh_loc_unused h) as Hfresh.
    split_and!; [done|by apply insert_subseteq|].
    eexists td, _. split_and!; [done|apply lookup_insert_eq|by eexists|done|done|].
    rewrite Hc. by intros [? ?].
Qed.

Lemma loadedFrom_weaken h h1 h2 l l' :
  h1 ⊆ h2 → loadedFrom h h1 l l' → loadedFrom h h2 l l'.
Proof.
  intros Hsub (td & td' & ? & Hl' & ?). exists td, td'.
  split; [done|]. split; [|done]. by eapply lookup_weaken.
Qed.

Lemma loadedFrom_strengthen h h1 h2 l l' :
  h ⊆ h1 → is_Some (h !! l) → loadedFrom h1 h2 l l' → loadedFrom h h2 l l'.
Proof.
  intros Hsub [td0 Hl0] (td & td' & Hl & ?).
  rewrite (lookup_weaken _ _ _ _ Hl0 Hsub) in Hl. simplify_eq. by exists td, td'.
Qed.

Lemma Forall2_impl_Forall_l {A B} (P : A → Prop) (R R' : A → B → Prop)
    (xs : list A) (ys : list B) :
  Forall P xs → Forall2 R xs ys → (∀ x y, P x → R x y → R' x y) → Forall2 R' xs ys.
Proof.
  intros HP HR Himpl. induction HR as [|x y xs ys HR _ IH]; [constructor|].
  apply Forall_cons in HP as [? ?]. constructor; eauto.
Qed.

Lemma mapM_loadTaskClass self (pipeline : list nat) h :
  Forall (loadable self h) pipeline →
  ∃ taskList h',
    mapM (_loadTaskClass self) pipeline h = (inr taskList, h') ∧
    h ⊆ h' ∧ Forall2 (loadedFrom h h') pipeline taskList.
Proof.
  revert h. induction pipeline as [|l pipeline IH]; intros h Hall.
  { exists [], h. split_and!; [done..|constructor]. }
  apply Forall_cons in Hall as [Hl Hall].
  destruct (_loadTaskClass_loadable _ _ _ Hl) as (l1 & h1 & Hrun & Hsub & Hfrom).
  destruct (IH h1) as (taskList & h' & Hruns & Hsub' & Hfroms).
  { eapply Forall_impl; [exact Hall|]. intros x. by apply loadable_weaken. }
  exists (l1 :: taskList), h'. cbn [mapM].
  rewrite bind_unfold, Hrun, bind_unfold, Hruns. split_and!; [done|by etrans|].
  constructor; [by eapply loadedFrom_weaken|].
  eapply (Forall2_impl_Forall_l _ _ _ _ _ Hall Hfroms).
  intros x y (td & Hx & _)%loadable_inv. by apply loadedFrom_strengthen.
Qed.

(** X11. The list comprehension of [makeGraph]: on references that are in
    use and whose classes are set or known to the factory, it returns,
    in the order of the pipeline, one reference per task to an object
    with a class and with the config and label of the task (the task's
    own object if it had a class); the store only gains objects. *)
Theorem load_all_tasks self (pipeline : list nat) h :
  Forall (loadable self h) pipeline →
  ∃ taskList h',
    mapM (_loadTaskClass self) pipeline h = (inr taskList, h') ∧
    h ⊆ h' ∧ Forall2 (loadedFrom h h') pipeline taskList.
Proof. apply mapM_loadTaskClass. Qed.

Lemma loaded_resolvedAt h h' (pipeline taskList : list nat) :
  Forall2 (loadedFrom h h') pipeline taskList →
  ∃ tds, resolvedAt h' taskList tds.
Proof.
  induction 1 as [|l l' pipeline taskList (td & td' & _ & Hl' & Hc & _) _ [tds IH]].
  - exists []. constructor.
  - exists (td' :: tds). by constructor.
Qed.

(** X1. On a pipeline of references that are in use, whose classes are
    set or known to the factory, [makeGraph] raises nothing and returns
    [None]: once the classes are loaded, [buildIODatasets] cannot fail.
    The store it leaves extends the one it was given. *)
Theorem makeGraph_total self (pipeline : list nat) h :
  Forall (loadable self h) pipeline →
  ∃ h', makeGraph (QuantumGraph := QuantumGraph) name self pipeline h = (inr None, h') ∧
        h ⊆ h'.
Proof.
  intros Hall.
  destruct (mapM_loadTaskClass self pipeline h Hall) as (taskList & h' & Hload & Hsub & Hfrom).
  destruct (loaded_resolvedAt _ _ _ _ Hfrom) as [tds Hres].
  destruct (buildIODatasets_result name self taskList tds h' Hres)
    as (ins & outs & Hio & _).
  exists h'. split; [|done]. unfold makeGraph.
  by rewrite bind_unfold, Hload, bind_unfold, Hio.
Qed.

Lemma mapM_app_fail {A B} (f : A → M DatasetType Config B)
    (pre post : list A) x ys e h h1 h2 :
  mapM f pre h = (inr ys, h1) → f x h1 = (inl e, h2) →
  mapM f (pre ++ x :: post) h = (inl e, h2).
Proof.
  revert h ys. induction pre as [|a pre IH]; intros h ys; cbn [mapM app].
  - intros [= <- <-] Hx. by rewrite bind_unfold, Hx.
  - rewrite !bind_unfold. destruct (f a h) as [[e'|y] h']; [done|].
    rewrite !bind_unfold. destruct (mapM f pre h') as [[e'|ys'] h''] eqn:Hpre; [done|].
    unfold ret. intros [= <- <-] Hx. by rewrite (IH _ _ Hpre Hx).
Qed.

(** X3. [makeGraph] lets the factory's exception through: when the tasks
    before [l] load and the factory raises [e] for the unset class of
    [l], [makeGraph] raises [e]; the tasks after [l] are not looked at
    and no dataset type is read. *)
Theorem makeGraph_factory_error self (pre post : list nat) l h td e :
  Forall (loadable self h) pre →
  h !! l = Some td → taskClass td = None →
  loadTaskClass (taskFactory self) (taskName td) = inl e →
  ∃ h', makeGraph (QuantumGraph := QuantumGraph) name self (pre ++ l :: post) h
          = (inl e, h') ∧ h ⊆ h'.
Proof.
  intros Hpre Hl Hc Hf.
  destruct (mapM_loadTaskClass self pre h Hpre) as (taskList & h1 & Hload & Hsub & _).
  exists h1. split; [|done]. unfold makeGraph. rewrite bind_unfold.
  rewrite (mapM_app_fail _ pre post l taskList e h h1 h1 Hload); [done|].
  eapply _loadTaskClass_failed; [by eapply lookup_weaken|done..].
Qed.

(** ** When [buildIODatasets] returns *)

Lemma foldM_visit_unloaded h (tasks : list nat) (tds : list TaskDef') vars :
  Forall2 (λ l td, h !! l = Some td) tasks tds →
  ¬ Forall (λ td, is_Some (taskClass td)) tds →
  foldM (visit name) vars tasks h
    = (inl (AttributeError "NoneType" "getInputDatasetTypes"), h).
Proof.
  intros Hvalid. revert vars.
  induction Hvalid as [|l td tasks tds Hl _ IH]; intros vars Hnot.
  { destruct Hnot. constructor. }
  cbn [foldM]. rewrite bind_unfold.
  destruct (taskClass td) as [tClass|] eqn:Hc.
  - rewrite (visit_resolved name _ _ _ _ Hl (mk_is_Some _ _ Hc)). apply IH.
    intros Hall. apply Hnot. constructor; [by eexists|done].
  - by rewrite (visit_unresolved name _ _ _ _ Hl Hc).
Qed.

(** X6. On references that are in use, [buildIODatasets] returns exactly
    when every task has its class; otherwise the one exception it raises
    is the [AttributeError] of calling [getInputDatasetTypes] on [None].
    A [KeyError] from the table lookups never escapes. *)
Theorem buildIODatasets_returns_iff_loaded self (tasks : list nat)
    (tds : list TaskDef') h :
  Forall2 (λ l td, h !! l = Some td) tasks tds →
  (Forall (λ td, is_Some (taskClass td)) tds →
   ∃ io, buildIODatasets name self tasks h = (inr io, h)) ∧
  (¬ Forall (λ td, is_Some (taskClass td)) tds →
   buildIODatasets name self tasks h
     = (inl (AttributeError "NoneType" "getInputDatasetTypes"), h)).
Proof.
  intros Hvalid. split.
  - intros Hall.
    assert (resolvedAt h tasks tds) as Hres.
    { clear self. induction Hvalid as [|l td tasks tds Hl _ IH]; [constructor|].
      apply Forall_cons in Hall as [? ?]. constructor; [done|by apply IH]. }
    destruct (buildIODatasets_result name self tasks tds h Hres) as (ins & outs & Hio & _).
    by exists (ins, outs).
  - intros Hnot. unfold buildIODatasets.
    by rewrite bind_unfold, (foldM_visit_unloaded _ _ _ _ Hvalid Hnot).
Qed.

(** ** The returned sets *)

Implicit Types (ins outs : gset DatasetType) (d : DatasetType).

Lemma lastDeclared_declared (tds : list TaskDef') d :
  lastDeclared name tds d → ∃ td, td ∈ tds ∧ d ∈ declared td.
Proof.
  intros (pre & td & post & before & after & -> & Hd & _). exists td. split.
  - apply elem_of_app. right. by left.
  - rewrite Hd. apply elem_of_app. right. by left.
Qed.

Lemma consistent_lastDeclared (tds : list TaskDef') td d :
  consistentNames name tds → td ∈ tds → d ∈ declared td → lastDeclared name tds d.
Proof.
  intros Hcons Htd Hd.
  destruct (lastDeclared_exists name tds td d Htd Hd) as (d0 & Hn & Hlast).
  destruct (lastDeclared_declared _ _ Hlast) as (td0 & Htd0 & Hd0).
  by rewrite <- (Hcons td0 td d0 d Htd0 Htd Hd0 Hd Hn).
Qed.

Lemma resolvedAt_elem h (tasks : list nat) (tds : list TaskDef') td :
  resolvedAt h tasks tds → td ∈ tds ↔ ∃ l, l ∈ tasks ∧ h !! l = Some td.
Proof.
  intros Hres. split.
  - intros [i Hi]%list_elem_of_lookup_1.
    destruct (Forall2_lookup_r _ _ _ _ _ Hres Hi) as (l & Hl & Hh & _).
    exists l. split; [by eapply list_elem_of_lookup_2|done].
  - intros (l & [i Hi]%list_elem_of_lookup_1 & Hh).
    destruct (Forall2_lookup_l _ _ _ _ _ Hres Hi) as (td' & Hi' & Hh' & _).
    assert (td' = td) as -> by congruence. by eapply list_elem_of_lookup_2.
Qed.

(** X9. The two returned sets together hold at most one dataset type per
    name. *)
Theorem buildIODatasets_one_per_name self (tasks : list nat) (tds : list TaskDef') h :
  resolvedAt h tasks tds →
  ∃ ins outs,
    buildIODatasets name self tasks h = (inr (ins, outs), h) ∧
    ∀ d d', d ∈ ins ∪ outs → d' ∈ ins ∪ outs → name d = name d' → d = d'.
Proof.
  intros Hres.
  destruct (buildIODatasets_result name self tasks tds h Hres)
    as (ins & outs & Hrun & Hout & Hin).
  exists ins, outs. split; [done|]. intros d d' Hd Hd' Hn.
  apply (lastDeclared_unique name tds); [| |done].
  - apply elem_of_union in Hd as [Hd%Hin|Hd%Hout]; naive_solver.
  - apply elem_of_union in Hd' as [Hd'%Hin|Hd'%Hout]; naive_solver.
Qed.

(** X10. The returned sets hold declared dataset types only: a member of
    the inputs is among the values of some task's
    [getInputDatasetTypes], a member of the outputs among the values
    of some task's [getInputDatasetTypes] or [getOutputDatasetTypes]. *)
Theorem buildIODatasets_members_declared self (tasks : list nat)
    (tds : list TaskDef') h :
  resolvedAt h tasks tds →
  ∃ ins outs,
    buildIODatasets name self tasks h = (inr (ins, outs), h) ∧
    (∀ d, d ∈ ins → ∃ td, td ∈ tds ∧ d ∈ declaredInputs td) ∧
    (∀ d, d ∈ outs → ∃ td, td ∈ tds ∧ d ∈ declaredInputs td ++ declaredOutputs td).
Proof.
  intros Hres.
  destruct (buildIODatasets_result name self tasks tds h Hres)
    as (ins & outs & Hrun & Hout & Hin).
  exists ins, outs. split; [done|]. split.
  - intros d (_ & Hnw & (td & Htd & Hd)%lastDeclared_declared)%Hin.
    exists td. split; [done|].
    apply elem_of_app in Hd as [?|Hd]; [done|]. destruct Hnw. by exists td, d.
  - intros d (_ & (td & Htd & Hd)%lastDeclared_declared)%Hout. by exists td.
Qed.

Lemma buildIODatasets_names self (tasks : list nat) (tds : list TaskDef') h :
  resolvedAt h tasks tds →
  ∃ ins outs,
    buildIODatasets name self tasks h = (inr (ins, outs), h) ∧
    (∀ n, n ∈ (set_map name outs : gset string) ↔ writtenBy name tds n) ∧
    (∀ n, n ∈ (set_map name ins : gset string) ↔
          readBy name tds n ∧ ¬ writtenBy name tds n).
Proof.
  intros Hres.
  destruct (buildIODatasets_result name self tasks tds h Hres)
    as (ins & outs & Hrun & Hout & Hin).
  exists ins, outs. split_and!; [done|..]; intros n; rewrite elem_of_map.
  - split.
    + intros (d & -> & [? _]%Hout). done.
    + intros Hw. pose proof Hw as (td & d0 & Htd & Hd0 & <-).
      destruct (lastDeclared_exists name tds td d0) as (d & Hn & Hlast); [done| |].
      { apply elem_of_app. by right. }
      exists d. split; [done|]. apply Hout. by rewrite Hn.
  - split.
    + intros (d & -> & (? & ? & _)%Hin). done.
    + intros [Hr Hw]. pose proof Hr as (td & d0 & Htd & Hd0 & <-).
      destruct (lastDeclared_exists name tds td d0) as (d & Hn & Hlast); [done| |].
      { apply elem_of_app. by left. }
      exists d. split; [done|]. apply Hin. by rewrite Hn.
Qed.

Lemma same_tasks h (tasks tasks' : list nat) (tds tds' : list TaskDef') :
  resolvedAt h tasks tds → resolvedAt h tasks' tds' →
  (∀ l, l ∈ tasks ↔ l ∈ tasks') →
  (∀ td, td ∈ tds ↔ td ∈ tds') ∧
  (∀ n, writtenBy name tds n ↔ writtenBy name tds' n) ∧
  (∀ n, readBy name tds n ↔ readBy name tds' n).
Proof.
  intros Hres Hres' Hsame.
  assert (∀ td, td ∈ tds ↔ td ∈ tds') as Htds.
  { intros td. rewrite (resolvedAt_elem _ _ _ _ Hres), (resolvedAt_elem _ _ _ _ Hres').
    by setoid_rewrite Hsame. }
  split_and!; [done|..]; intros n; unfold writtenBy, readBy; by setoid_rewrite Htds.
Qed.

(** X7. The names in the returned sets depend only on which tasks are in
    the list, not on their order or on repetitions. *)
Theorem buildIODatasets_names_order self (tasks tasks' : list nat)
    (tds tds' : list TaskDef') h :
  resolvedAt h tasks tds → resolvedAt h tasks' tds' →
  (∀ l, l ∈ tasks ↔ l ∈ tasks') →
  ∃ ins outs ins' outs',
    buildIODatasets name self tasks h = (inr (ins, outs), h) ∧
    buildIODatasets name self tasks' h = (inr (ins', outs'), h) ∧
    (set_map name ins : gset string) = set_map name ins' ∧
    (set_map name outs : gset string) = set_map name outs'.
Proof.
  intros Hres Hres' Hsame.
  destruct (same_tasks _ _ _ _ _ Hres Hres' Hsame) as (_ & Hw & Hr).
  destruct (buildIODatasets_names self tasks tds h Hres)
    as (ins & outs & Hrun & Hout & Hin).
  destruct (buildIODatasets_names self tasks' tds' h Hres')
    as (ins' & outs' & Hrun' & Hout' & Hin').
  exists ins, outs, ins', outs'. split_and!; [done..| |].
  - apply set_eq. intros n. by rewrite Hin, Hin', Hr, Hw.
  - apply set_eq. intros n. by rewrite Hout, Hout', Hw.
Qed.

(** X8. When dataset types of one name are one dataset type across the
    declarations of the tasks, the returned sets themselves depend only
    on which tasks are in the list: the outputs are all declared dataset
    types whose name some task writes, the inputs all declared dataset
    types whose name some task reads and none writes. *)
Theorem buildIODatasets_order self (tasks tasks' : list nat)
    (tds tds' : list TaskDef') h :
  resolvedAt h tasks tds → resolvedAt h tasks' tds' →
  (∀ l, l ∈ tasks ↔ l ∈ tasks') →
  consistentNames name tds →
  ∃ ins outs,
    buildIODatasets name self tasks h = (inr (ins, outs), h) ∧
    buildIODatasets name self tasks' h = (inr (ins, outs), h) ∧
    (∀ d, d ∈ outs ↔ writtenBy name tds (name d) ∧ ∃ td, td ∈ tds ∧ d ∈ declared td) ∧
    (∀ d, d ∈ ins ↔ readBy name tds (name d) ∧ ¬ writtenBy name tds (name d) ∧
                    ∃ td, td ∈ tds ∧ d ∈ declared td).
Proof.
  intros Hres Hres' Hsame Hcons.
  destruct (same_tasks _ _ _ _ _ Hres Hres' Hsame) as (Htds & Hw & Hr).
  assert (consistentNames name tds') as Hcons'.
  { intros td td' d d' ?%Htds ?%Htds. by apply Hcons. }
  assert (∀ tds0 : list TaskDef', consistentNames name tds0 →
            ∀ d, lastDeclared name tds0 d ↔ ∃ td, td ∈ tds0 ∧ d ∈ declared td) as Hlast.
  { intros tds0 Hc d. split; [apply lastDeclared_declared|].
    intros (td & ? & ?). by eapply consistent_lastDeclared. }
  destruct (buildIODatasets_result name self tasks tds h Hres)
    as (ins & outs & Hrun & Hout & Hin).
  destruct (buildIODatasets_result name self tasks' tds' h Hres')
    as (ins' & outs' & Hrun' & Hout' & Hin').
  assert (outs' = outs) as ->.
  { apply set_eq. intros d. rewrite Hout, Hout', (Hlast _ Hcons), (Hlast _ Hcons'), Hw.
    by setoid_rewrite Htds. }
  assert (ins' = ins) as ->.
  { apply set_eq. intros d.
    rewrite Hin, Hin', (Hlast _ Hcons), (Hlast _ Hcons'), Hw, Hr.
    by setoid_rewrite Htds. }
  exists ins, outs. split_and!; [done..| |]; intros d.
  - by rewrite Hout, (Hlast _ Hcons).
  - by rewrite Hin, (Hlast _ Hcons).
Qed.

End GraphBuilderStore.

(** * Properties of the mocks of test_pipeTools.py *)

Section MockProofs.
Import Tests GraphBuilder.

Abbreviation MockTaskDef := (TaskDef DS ExampleSuperTaskConfig).

Lemma setNames_units (names : list string) :
  dc_units (setNames names).1 = [] ∧ dc_units (setNames names).2 = [].
Proof. by destruct names as [|? [|? ?]]. Qed.

Lemma setNames_names (names : list string) :
  length names = 1 ∨ length names = 2 ∧ names !! 1 ≠ Some "" →
  dc_name (setNames names).1 :: (if decide (dc_name (setNames names).2 = "")
                                 then [] else [dc_name (setNames names).2])
    = names.
Proof.
  destruct names as [|n1 [|n2 [|? ?]]]; simpl; intros [?|[? Hn2]]; try done.
  case_decide; [by subst|done].
Qed.

(** X12. What [_makeConfig] stores comes back from [ExampleSuperTask]: for
    one name, or two names of which the second is not empty, the names
    of the dataset types of [getInputDatasetTypes] are the input names
    given, in order, and likewise for the outputs. *)
Theorem ExampleSuperTask_names (inputName outputName : list string) :
  length inputName = 1 ∨ length inputName = 2 ∧ inputName !! 1 ≠ Some "" →
  length outputName = 1 ∨ length outputName = 2 ∧ outputName !! 1 ≠ Some "" →
  name <$> values (getInputDatasetTypes ExampleSuperTask
                     (_makeConfig inputName outputName)) = inputName ∧
  name <$> values (getOutputDatasetTypes ExampleSuperTask
                     (_makeConfig inputName outputName)) = outputName.
Proof.
  intros Hin Hout. unfold _makeConfig.
  pose proof (setNames_names _ Hin) as Hi. pose proof (setNames_names _ Hout) as Ho.
  destruct (setNames inputName) as [i1 i2], (setNames outputName) as [o1 o2].
  simpl in *. split.
  - rewrite <- Hi. by destruct (decide (dc_name i2 = "")).
  - rewrite <- Ho. by destruct (decide (dc_name o2 = "")).
Qed.

Lemma ExampleSuperTask_units inputName outputName (d : DS) :
  d ∈ values (getInputDatasetTypes ExampleSuperTask (_makeConfig inputName outputName))
      ++ values (getOutputDatasetTypes ExampleSuperTask (_makeConfig inputName outputName)) →
  units d = [].
Proof.
  unfold _makeConfig.
  pose proof (setNames_units inputName) as [Hi1 Hi2].
  pose proof (setNames_units outputName) as [Ho1 Ho2].
  destruct (setNames inputName) as [i1 i2], (setNames outputName) as [o1 o2].
  simpl in *. intros [Hd|Hd]%elem_of_app; revert Hd; case_decide; simpl;
    rewrite ?elem_of_cons, elem_of_nil; unfold makeDatasetType;
    intros Hd; destruct_or!; subst; done.
Qed.

Lemma mock_consistentNames
    (tasks : list (list string * list string * string *
                   option (TaskClass DS ExampleSuperTaskConfig))) :
  Forall (λ t, t.2 = None ∨ t.2 = Some ExampleSuperTask) tasks →
  consistentNames name (_makePipeline tasks).
Proof.
  intros Hall.
  assert (∀ td d, td ∈ _makePipeline tasks → d ∈ declared td → units d = []) as Hunits.
  { intros td d ([[[inputs outputs] lbl] klass] & -> & Ht)%list_elem_of_fmap.
    rewrite Forall_forall in Hall. specialize (Hall _ Ht). simpl in Hall.
    unfold declared, declaredInputs, declaredOutputs. simpl.
    destruct Hall as [-> | ->]; simpl.
    - intros Hd. by apply elem_of_nil in Hd.
    - apply ExampleSuperTask_units. }
  intros td td' d d' Htd Htd' Hd Hd' Hn.
  pose proof (Hunits _ _ Htd Hd) as Hu. pose proof (Hunits _ _ Htd' Hd') as Hu'.
  destruct d, d'. simpl in *. congruence.
Qed.

(** X13. In a pipeline from [_makePipeline] whose task classes are
    [ExampleSuperTask] or unset, a dataset type is determined by its
    name: any two declared dataset types of one name are equal. *)
Theorem _makePipeline_consistentNames
    (tasks : list (list string * list string * string *
                   option (TaskClass DS ExampleSuperTaskConfig))) :
  Forall (λ t, t.2 = None ∨ t.2 = Some ExampleSuperTask) tasks →
  consistentNames name (_makePipeline tasks).
Proof. apply mock_consistentNames. Qed.

End MockProofs.

(** ** The further statements at concrete inputs *)

Section FurtherExamples.
Import Tests Examples GraphBuilder.

Local Ltac resolved :=
  repeat (apply List.Forall2_cons; [split; [reflexivity | eexists; reflexivity]|]);
  apply List.Forall2_nil.

Local Ltac all_loadable :=
  repeat (apply List.Forall_cons; [vm_compute; exact I|]); apply List.Forall_nil.

Local Ltac by_computation := apply (bool_decide_unpack _); vm_compute; exact I.

Lemma makeGraph_total_witness :
  ∃ h', makeGraph (QuantumGraph := unit) name builder [0; 1] (allocate unloaded)
          = (inr None, h') ∧ allocate unloaded ⊆ h'.
Proof. apply makeGraph_total. all_loadable. Defined.

Lemma makeGraph_keeps_objects_witness :
  (makeGraph (QuantumGraph := unit) name brokenBuilder [0; 1] (allocate halfLoaded)).2 !! 1
  = Some (mkTaskDef "ExampleSuperTask" (_makeConfig ["B"] ["C"]) None "task2").
Proof. apply makeGraph_keeps_objects. reflexivity. Defined.

Lemma makeGraph_factory_error_witness :
  ∃ h', makeGraph (QuantumGraph := unit) name brokenBuilder ([0] ++ 1 :: [])
          (allocate halfLoaded) = (inl (FactoryError "ExampleSuperTask"), h') ∧
        allocate halfLoaded ⊆ h'.
Proof.
  eapply (makeGraph_factory_error name brokenBuilder [0] [] 1);
    [all_loadable | reflexivity | reflexivity | reflexivity].
Defined.

Lemma _loadTaskClass_idempotent_witness :
  ∃ l' h', _loadTaskClass builder 0 (allocate unloaded) = (inr l', h') ∧
           _loadTaskClass builder l' h' = (inr l', h').
Proof.
  eexists _, _. split; [vm_compute; reflexivity|].
  eapply (_loadTaskClass_idempotent builder 0 (allocate unloaded)).
  vm_compute. reflexivity.
Defined.

Lemma buildIODatasets_returns_iff_loaded_witness :
  buildIODatasets name builder [0; 1] (allocate halfLoaded)
  = (inl (AttributeError "NoneType" "getInputDatasetTypes"), allocate halfLoaded).
Proof.
  eapply (buildIODatasets_returns_iff_loaded name builder [0; 1] halfLoaded).
  - repeat (apply List.Forall2_cons; [reflexivity|]). apply List.Forall2_nil.
  - intros [_ [[? Hc] _]%Forall_cons]%Forall_cons. discriminate Hc.
Defined.

Lemma buildIODatasets_one_per_name_witness :
  ∃ ins outs,
    buildIODatasets name builder [0; 1; 2] (allocate twoProducers)
      = (inr (ins, outs), allocate twoProducers) ∧
    ∀ d d', d ∈ ins ∪ outs → d' ∈ ins ∪ outs → name d = name d' → d = d'.
Proof.
  apply (buildIODatasets_one_per_name name builder [0; 1; 2] twoProducers).
  resolved.
Defined.

Lemma buildIODatasets_members_declared_witness :
  ∃ ins outs,
    buildIODatasets name builder [0; 1; 2] (allocate twoProducers)
      = (inr (ins, outs), allocate twoProducers) ∧
    (∀ d, d ∈ ins → ∃ td, td ∈ twoProducers ∧ d ∈ declaredInputs td) ∧
    (∀ d, d ∈ outs →
          ∃ td, td ∈ twoProducers ∧ d ∈ declaredInputs td ++ declaredOutputs td).
Proof.
  apply (buildIODatasets_members_declared name builder [0; 1; 2] twoProducers).
  resolved.
Defined.

Lemma buildIODatasets_names_order_witness :
  ∃ ins outs ins' outs',
    buildIODatasets name builder [0; 1; 2] (allocate twoProducers)
      = (inr (ins, outs), allocate twoProducers) ∧
    buildIODatasets name builder [2; 0; 1; 0] (allocate twoProducers)
      = (inr (ins', outs'), allocate twoProducers) ∧
    (set_map name ins : gset string) = set_map name ins' ∧
    (set_map name outs : gset string) = set_map name outs'.
Proof.
  eapply (buildIODatasets_names_order name builder [0; 1; 2] [2; 0; 1; 0]).
  - resolved.
  - resolved.
  - intros l. rewrite !elem_of_cons, !elem_of_nil. naive_solver.
Defined.

Lemma diamond_consistentNames : consistentNames name diamond.
Proof.
  apply mock_consistentNames.
  repeat (apply List.Forall_cons; [by right|]). apply List.Forall_nil.
Qed.

Lemma buildIODatasets_order_witness :
  ∃ ins outs,
    buildIODatasets name builder [0; 1; 2; 3] (allocate diamond)
      = (inr (ins, outs), allocate diamond) ∧
    buildIODatasets name builder [3; 1; 2; 0] (allocate diamond)
      = (inr (ins, outs), allocate diamond).
Proof.
  destruct (buildIODatasets_order name builder [0; 1; 2; 3] [3; 1; 2; 0]
              diamond reversedDiamond (allocate diamond))
    as (ins & outs & Hrun & Hrun' & _).
  - resolved.
  - resolved.
  - intros l. rewrite !elem_of_cons, !elem_of_nil. naive_solver.
  - exact diamond_consistentNames.
  - by exists ins, outs.
Defined.

Lemma load_all_tasks_witness :
  ∃ taskList h',
    mapM (_loadTaskClass builder) [0; 1] (allocate unloaded) = (inr taskList, h') ∧
    allocate unloaded ⊆ h' ∧
    Forall2 (loadedFrom (allocate unloaded) h') [0; 1] taskList.
Proof. apply load_all_tasks. all_loadable. Defined.

Lemma ExampleSuperTask_names_witness :
  name <$> values (getInputDatasetTypes ExampleSuperTask (_makeConfig ["D"; "E"] ["F"]))
    = ["D"; "E"] ∧
  name <$> values (getOutputDatasetTypes ExampleSuperTask (_makeConfig ["D"; "E"] ["F"]))
    = ["F"].
Proof.
  apply ExampleSuperTask_names.
  - right. split; [reflexivity|]. simpl. discriminate.
  - left. reflexivity.
Defined.

Lemma _makePipeline_consistentNames_witness :
  consistentNames name
    (_makePipeline [task ["A"] ["B"] "task1"; (["B"], ["C"], "task2", None)]).
Proof.
  apply _makePipeline_consistentNames.
  apply List.Forall_cons; [by right|]. apply List.Forall_cons; [by left|].
  apply List.Forall_nil.
Defined.

End FurtherExamples.
